(** * Constraints-based layout widgets of enaml

    A shallow embedding of [enaml/widgets/constraints_widget.py] and
    [enaml/widgets/container.py]: the symbolic box model of a widget, the
    collection of its constraints, its strength policies, the observers
    that invalidate the layout and the collapsing of relayout requests
    into one scheduled task. *)

From Stdlib Require Import QArith Lqa.
From stdpp Require Import base decidable option list strings gmap.

Local Open Scope nat_scope.

(** ** Symbolic variables, expressions and constraints (casuarius)

    A [ConstraintVariable] is identified by the object that owns it and by
    the name of the member that created it ([ConstraintVariable(self.name)]
    in [ConstraintMember.default]).  Expressions are the terms the widget
    code builds with [+] and [/]; constraints are the result of [>=]. *)

Record ConstraintVariable := { var_owner : nat; var_name : string }.

Inductive LinearExpression :=
| Var (v : ConstraintVariable)
| Num (k : Q)
| Add (a b : LinearExpression)
| Div (a : LinearExpression) (k : Q).

Inductive Relation := GreaterEq | LessEq | Equal.

Record LinearConstraint := {
  cn_lhs : LinearExpression;
  cn_op : Relation;
  cn_rhs : LinearExpression;
  cn_strength : string
}.

(** [a >= b] on symbolic operands: casuarius builds the constraint at its
    default strength, [required]. *)
Definition ge (a b : LinearExpression) : LinearConstraint :=
  {| cn_lhs := a; cn_op := GreaterEq; cn_rhs := b; cn_strength := "required" |}.

(** The value of an expression under an assignment of the variables. *)
Fixpoint value (env : ConstraintVariable -> Q) (e : LinearExpression) : Q :=
  match e with
  | Var v => env v
  | Num k => k
  | Add a b => (value env a + value env b)%Q
  | Div a k => (value env a / k)%Q
  end.

(** ** Objects of the widget tree *)

(** The two classes of this module; [Container] derives from
    [ConstraintsWidget] (through [Frame]). *)
Inductive Kind := ConstraintsWidget_ | Container_.

(** A child of a widget: its identity and, when it is an instance of
    [ConstraintsWidget], its class. *)
Record Child := { child_id : nat; child_kind : option Kind }.

(** [enaml.layout.geometry.Box] *)
Record Box := { box_top : Z; box_right : Z; box_bottom : Z; box_left : Z }.

(** Constraint generating helpers; [vbox] is the one this code creates. *)
Inductive DeferredConstraints := vbox (items : list Child).

(** An entry of a [constraints] list. *)
Inductive Entry :=
| Linear (c : LinearConstraint)
| Deferred (d : DeferredConstraints).

(** The platform proxy behind a widget: either the abstract
    [ProxyConstraintsWidget], whose [relayout] raises
    [NotImplementedError], or a toolkit implementation. *)
Inductive Proxy := AbstractProxy | ToolkitProxy.

#[global] Instance Q_eq_dec : EqDecision Q.
Proof. solve_decision. Defined.
#[global] Instance ConstraintVariable_eq_dec : EqDecision ConstraintVariable.
Proof. solve_decision. Defined.
#[global] Instance LinearExpression_eq_dec : EqDecision LinearExpression.
Proof. solve_decision. Defined.
#[global] Instance Relation_eq_dec : EqDecision Relation.
Proof. solve_decision. Defined.
#[global] Instance LinearConstraint_eq_dec : EqDecision LinearConstraint.
Proof. solve_decision. Defined.
#[global] Instance Kind_eq_dec : EqDecision Kind.
Proof. solve_decision. Defined.
#[global] Instance Child_eq_dec : EqDecision Child.
Proof. solve_decision. Defined.
#[global] Instance Box_eq_dec : EqDecision Box.
Proof. solve_decision. Defined.
#[global] Instance DeferredConstraints_eq_dec : EqDecision DeferredConstraints.
Proof. solve_decision. Defined.
#[global] Instance Entry_eq_dec : EqDecision Entry.
Proof. solve_decision. Defined.
#[global] Instance Proxy_eq_dec : EqDecision Proxy.
Proof. solve_decision. Defined.

(** The members of the two classes that this development reads or writes. *)
Inductive Member :=
| m_constraints
| m_left | m_top | m_width | m_height
| m_right | m_bottom | m_v_center | m_h_center
| m_hug_width | m_hug_height | m_resist_width | m_resist_height
| m_share_layout | m_padding.

#[global] Instance Member_eq_dec : EqDecision Member.
Proof. solve_decision. Defined.

Definition member_name (m : Member) : string :=
  match m with
  | m_constraints => "constraints"
  | m_left => "left" | m_top => "top"
  | m_width => "width" | m_height => "height"
  | m_right => "right" | m_bottom => "bottom"
  | m_v_center => "v_center" | m_h_center => "h_center"
  | m_hug_width => "hug_width" | m_hug_height => "hug_height"
  | m_resist_width => "resist_width" | m_resist_height => "resist_height"
  | m_share_layout => "share_layout" | m_padding => "padding"
  end.

(** The slots of a [ConstraintsWidget] (or [Container]) instance.  The four
    [Constant] members hold nothing until they are first read; the task
    slot is null unless a relayout is pending.  [share_layout], [padding]
    are members of [Container] only.  A writable member holds nothing
    either until it is first read or assigned: [filled] lists the writable
    members whose slot has been filled, and the field of a member that is
    not listed shows the default the first read will put there. *)
Record Widget := {
  wid : nat;
  kind : Kind;
  children : list Child;
  constraints : list Entry;
  right_slot : option LinearExpression;
  bottom_slot : option LinearExpression;
  v_center_slot : option LinearExpression;
  h_center_slot : option LinearExpression;
  hug_width : string;
  hug_height : string;
  resist_width : string;
  resist_height : string;
  proxy : Proxy;
  proxy_is_active : bool;
  _layout_task : option nat;
  filled : list Member;
  share_layout : bool;
  padding : Box
}.

#[global] Instance Widget_eq_dec : EqDecision Widget.
Proof. solve_decision. Defined.

(** *** Slot updates *)

Definition with_constraints (self : Widget) (v : list Entry) : Widget :=
  {| wid := wid self; kind := kind self; children := children self;
     constraints := v;
     right_slot := right_slot self; bottom_slot := bottom_slot self;
     v_center_slot := v_center_slot self; h_center_slot := h_center_slot self;
     hug_width := hug_width self; hug_height := hug_height self;
     resist_width := resist_width self; resist_height := resist_height self;
     proxy := proxy self; proxy_is_active := proxy_is_active self;
     _layout_task := _layout_task self;
     filled := filled self;
     share_layout := share_layout self; padding := padding self |}.

Definition with_right (self : Widget) (v : option LinearExpression) : Widget :=
  {| wid := wid self; kind := kind self; children := children self;
     constraints := constraints self;
     right_slot := v; bottom_slot := bottom_slot self;
     v_center_slot := v_center_slot self; h_center_slot := h_center_slot self;
     hug_width := hug_width self; hug_height := hug_height self;
     resist_width := resist_width self; resist_height := resist_height self;
     proxy := proxy self; proxy_is_active := proxy_is_active self;
     _layout_task := _layout_task self;
     filled := filled self;
     share_layout := share_layout self; padding := padding self |}.

Definition with_bottom (self : Widget) (v : option LinearExpression) : Widget :=
  {| wid := wid self; kind := kind self; children := children self;
     constraints := constraints self;
     right_slot := right_slot self; bottom_slot := v;
     v_center_slot := v_center_slot self; h_center_slot := h_center_slot self;
     hug_width := hug_width self; hug_height := hug_height self;
     resist_width := resist_width self; resist_height := resist_height self;
     proxy := proxy self; proxy_is_active := proxy_is_active self;
     _layout_task := _layout_task self;
     filled := filled self;
     share_layout := share_layout self; padding := padding self |}.

Definition with_v_center (self : Widget) (v : option LinearExpression) : Widget :=
  {| wid := wid self; kind := kind self; children := children self;
     constraints := constraints self;
     right_slot := right_slot self; bottom_slot := bottom_slot self;
     v_center_slot := v; h_center_slot := h_center_slot self;
     hug_width := hug_width self; hug_height := hug_height self;
     resist_width := resist_width self; resist_height := resist_height self;
     proxy := proxy self; proxy_is_active := proxy_is_active self;
     _layout_task := _layout_task self;
     filled := filled self;
     share_layout := share_layout self; padding := padding self |}.

Definition with_h_center (self : Widget) (v : option LinearExpression) : Widget :=
  {| wid := wid self; kind := kind self; children := children self;
     constraints := constraints self;
     right_slot := right_slot self; bottom_slot := bottom_slot self;
     v_center_slot := v_center_slot self; h_center_slot := v;
     hug_width := hug_width self; hug_height := hug_height self;
     resist_width := resist_width self; resist_height := resist_height self;
     proxy := proxy self; proxy_is_active := proxy_is_active self;
     _layout_task := _layout_task self;
     filled := filled self;
     share_layout := share_layout self; padding := padding self |}.

Definition with_hug_width (self : Widget) (v : string) : Widget :=
  {| wid := wid self; kind := kind self; children := children self;
     constraints := constraints self;
     right_slot := right_slot self; bottom_slot := bottom_slot self;
     v_center_slot := v_center_slot self; h_center_slot := h_center_slot self;
     hug_width := v; hug_height := hug_height self;
     resist_width := resist_width self; resist_height := resist_height self;
     proxy := proxy self; proxy_is_active := proxy_is_active self;
     _layout_task := _layout_task self;
     filled := filled self;
     share_layout := share_layout self; padding := padding self |}.

Definition with_hug_height (self : Widget) (v : string) : Widget :=
  {| wid := wid self; kind := kind self; children := children self;
     constraints := constraints self;
     right_slot := right_slot self; bottom_slot := bottom_slot self;
     v_center_slot := v_center_slot self; h_center_slot := h_center_slot self;
     hug_width := hug_width self; hug_height := v;
     resist_width := resist_width self; resist_height := resist_height self;
     proxy := proxy self; proxy_is_active := proxy_is_active self;
     _layout_task := _layout_task self;
     filled := filled self;
     share_layout := share_layout self; padding := padding self |}.

Definition with_resist_width (self : Widget) (v : string) : Widget :=
  {| wid := wid self; kind := kind self; children := children self;
     constraints := constraints self;
     right_slot := right_slot self; bottom_slot := bottom_slot self;
     v_center_slot := v_center_slot self; h_center_slot := h_center_slot self;
     hug_width := hug_width self; hug_height := hug_height self;
     resist_width := v; resist_height := resist_height self;
     proxy := proxy self; proxy_is_active := proxy_is_active self;
     _layout_task := _layout_task self;
     filled := filled self;
     share_layout := share_layout self; padding := padding self |}.

Definition with_resist_height (self : Widget) (v : string) : Widget :=
  {| wid := wid self; kind := kind self; children := children self;
     constraints := constraints self;
     right_slot := right_slot self; bottom_slot := bottom_slot self;
     v_center_slot := v_center_slot self; h_center_slot := h_center_slot self;
     hug_width := hug_width self; hug_height := hug_height self;
     resist_width := resist_width self; resist_height := v;
     proxy := proxy self; proxy_is_active := proxy_is_active self;
     _layout_task := _layout_task self;
     filled := filled self;
     share_layout := share_layout self; padding := padding self |}.

Definition with_proxy_is_active (self : Widget) (v : bool) : Widget :=
  {| wid := wid self; kind := kind self; children := children self;
     constraints := constraints self;
     right_slot := right_slot self; bottom_slot := bottom_slot self;
     v_center_slot := v_center_slot self; h_center_slot := h_center_slot self;
     hug_width := hug_width self; hug_height := hug_height self;
     resist_width := resist_width self; resist_height := resist_height self;
     proxy := proxy self; proxy_is_active := v;
     _layout_task := _layout_task self;
     filled := filled self;
     share_layout := share_layout self; padding := padding self |}.

Definition with__layout_task (self : Widget) (v : option nat) : Widget :=
  {| wid := wid self; kind := kind self; children := children self;
     constraints := constraints self;
     right_slot := right_slot self; bottom_slot := bottom_slot self;
     v_center_slot := v_center_slot self; h_center_slot := h_center_slot self;
     hug_width := hug_width self; hug_height := hug_height self;
     resist_width := resist_width self; resist_height := resist_height self;
     proxy := proxy self; proxy_is_active := proxy_is_active self;
     _layout_task := v;
     filled := filled self;
     share_layout := share_layout self; padding := padding self |}.

Definition with_filled (self : Widget) (v : list Member) : Widget :=
  {| wid := wid self; kind := kind self; children := children self;
     constraints := constraints self;
     right_slot := right_slot self; bottom_slot := bottom_slot self;
     v_center_slot := v_center_slot self; h_center_slot := h_center_slot self;
     hug_width := hug_width self; hug_height := hug_height self;
     resist_width := resist_width self; resist_height := resist_height self;
     proxy := proxy self; proxy_is_active := proxy_is_active self;
     _layout_task := _layout_task self;
     filled := v;
     share_layout := share_layout self; padding := padding self |}.

(** The slot of member [m] gets a value. *)
Definition fill (self : Widget) (m : Member) : Widget :=
  if bool_decide (m ∈ filled self) then self
  else with_filled self (m :: filled self).

Definition with_share_layout (self : Widget) (v : bool) : Widget :=
  {| wid := wid self; kind := kind self; children := children self;
     constraints := constraints self;
     right_slot := right_slot self; bottom_slot := bottom_slot self;
     v_center_slot := v_center_slot self; h_center_slot := h_center_slot self;
     hug_width := hug_width self; hug_height := hug_height self;
     resist_width := resist_width self; resist_height := resist_height self;
     proxy := proxy self; proxy_is_active := proxy_is_active self;
     _layout_task := _layout_task self;
     filled := filled self;
     share_layout := v; padding := padding self |}.

Definition with_padding (self : Widget) (v : Box) : Widget :=
  {| wid := wid self; kind := kind self; children := children self;
     constraints := constraints self;
     right_slot := right_slot self; bottom_slot := bottom_slot self;
     v_center_slot := v_center_slot self; h_center_slot := h_center_slot self;
     hug_width := hug_width self; hug_height := hug_height self;
     resist_width := resist_width self; resist_height := resist_height self;
     proxy := proxy self; proxy_is_active := proxy_is_active self;
     _layout_task := _layout_task self;
     filled := filled self;
     share_layout := share_layout self; padding := v |}.

(** ** Member declarations *)

(** [atom.Enum]: the allowed items and the default, which is the first item
    unless a clone selects another one. *)
Record Enum := { enum_items : list string; enum_default : string }.

Definition Enum_ (first : string) (rest : list string) : Enum :=
  {| enum_items := first :: rest; enum_default := first |}.

(** [e(item)] and [set_default(item)]: a clone of the member with a new
    default. *)
Definition select (e : Enum) (item : string) : Enum :=
  {| enum_items := enum_items e; enum_default := item |}.

Definition PolicyEnum : Enum :=
  Enum_ "ignore" ["weak"; "medium"; "strong"; "required"].

(** The declarations of the four policies, class by class:
    [hug_width = d_(PolicyEnum('strong'))] and so on in [ConstraintsWidget],
    [hug_width = set_default('ignore')] and [hug_height] likewise in
    [Container]. *)
Definition decl_hug_width (k : Kind) : Enum :=
  match k with
  | ConstraintsWidget_ => select PolicyEnum "strong"
  | Container_ => select (select PolicyEnum "strong") "ignore"
  end.

Definition decl_hug_height (k : Kind) : Enum :=
  match k with
  | ConstraintsWidget_ => select PolicyEnum "strong"
  | Container_ => select (select PolicyEnum "strong") "ignore"
  end.

Definition decl_resist_width (k : Kind) : Enum := select PolicyEnum "strong".

Definition decl_resist_height (k : Kind) : Enum := select PolicyEnum "strong".

(** Values assigned to members.  The entries of a list are objects:
    [VHeld] is a list of the very objects the constraints slot holds, in
    their order (the stored list itself or a copy of it); [VList l] is any
    other list. *)
Inductive Value :=
| VList (l : list Entry)
| VHeld
| VStr (s : string)
| VBool (b : bool)
| VBox (b : Box)
| VExpr (e : LinearExpression).

#[global] Instance Value_eq_dec : EqDecision Value.
Proof. solve_decision. Defined.

(** The change passed to an observer: of type ["create"] when the slot was
    empty, at the first read or the first assignment of the member, and of
    type ["update"], with the old value, otherwise. *)
Record Change := {
  change_type : string;
  change_name : string;
  change_old : option Value;
  change_new : Value
}.

(** A freshly created object: every slot at its declared default, the
    proxy not yet active, no pending task.  [constraints = d_(List())],
    [share_layout = d_(Bool(False))],
    [padding = d_(Coerced(Box, (10, 10, 10, 10)))]. *)
Definition new (k : Kind) (id : nat) (p : Proxy) (cs : list Child) : Widget :=
  {| wid := id; kind := k; children := cs;
     constraints := [];
     right_slot := None; bottom_slot := None;
     v_center_slot := None; h_center_slot := None;
     hug_width := enum_default (decl_hug_width k);
     hug_height := enum_default (decl_hug_height k);
     resist_width := enum_default (decl_resist_width k);
     resist_height := enum_default (decl_resist_height k);
     proxy := p; proxy_is_active := false;
     _layout_task := None;
     filled := [];
     share_layout := false;
     padding := {| box_top := 10; box_right := 10;
                   box_bottom := 10; box_left := 10 |} |}.

(** [Enum] validation: the value must be one of the items. *)
Definition validate_enum (e : Enum) (v : Value) : option string :=
  match v with
  | VStr s => if bool_decide (s ∈ enum_items e) then Some s else None
  | _ => None
  end.

(** Validation and storage of an assignment [self.m = v]; [None] when the
    assignment raises.  The [Constant] members (the four variables and the
    four derived expressions) refuse every assignment; [share_layout] and
    [padding] exist on a [Container] only.  The slot is filled from then
    on. *)
Definition store (self : Widget) (m : Member) (v : Value) : option Widget :=
  match m with
  | m_constraints =>
      match v with
      | VList l => Some (fill (with_constraints self l) m_constraints)
      | VHeld => Some (fill self m_constraints)
      | _ => None
      end
  | m_hug_width =>
      s ← validate_enum (decl_hug_width (kind self)) v;
      Some (fill (with_hug_width self s) m_hug_width)
  | m_hug_height =>
      s ← validate_enum (decl_hug_height (kind self)) v;
      Some (fill (with_hug_height self s) m_hug_height)
  | m_resist_width =>
      s ← validate_enum (decl_resist_width (kind self)) v;
      Some (fill (with_resist_width self s) m_resist_width)
  | m_resist_height =>
      s ← validate_enum (decl_resist_height (kind self)) v;
      Some (fill (with_resist_height self s) m_resist_height)
  | m_share_layout =>
      match kind self, v with
      | Container_, VBool b => Some (fill (with_share_layout self b) m_share_layout)
      | _, _ => None
      end
  | m_padding =>
      match kind self, v with
      | Container_, VBox b => Some (fill (with_padding self b) m_padding)
      | _, _ => None
      end
  | m_left | m_top | m_width | m_height
  | m_right | m_bottom | m_v_center | m_h_center => None
  end.

(** The value a writable member holds, or will hold once its slot is
    filled with the default. *)
Definition current (self : Widget) (m : Member) : option Value :=
  match m with
  | m_constraints => Some (VList (constraints self))
  | m_hug_width => Some (VStr (hug_width self))
  | m_hug_height => Some (VStr (hug_height self))
  | m_resist_width => Some (VStr (resist_width self))
  | m_resist_height => Some (VStr (resist_height self))
  | m_share_layout =>
      match kind self with
      | Container_ => Some (VBool (share_layout self))
      | ConstraintsWidget_ => None
      end
  | m_padding =>
      match kind self with
      | Container_ => Some (VBox (padding self))
      | ConstraintsWidget_ => None
      end
  | _ => None
  end.

(** ** The application scheduler *)

Module Application.

(** The two closures [relayout] creates; each captures [self]. *)
Inductive Callback := layout_task (self : nat).
Inductive Completion := task_completed (self : nat).

Record ScheduledTask := {
  task_id : nat;
  task_callback : Callback;
  task_notify : option Completion
}.

(** Modelled from the spec: [enaml.application] is not among the sources.
    The scheduler is a single first-in first-out queue of tasks;
    [schedule(task)] queues the callback and returns a handle,
    [handle.notify(cb)] registers the completion callback, which fires
    after the task body completes. *)
Record Application := { tasks : list ScheduledTask; next_task : nat }.

(** Modelled from the spec: [schedule(task) -> handle]; the task joins the
    end of the queue and the handle is new. *)
Definition schedule (app : Application) (cb : Callback) : Application * nat :=
  ({| tasks := tasks app ++
               [{| task_id := next_task app; task_callback := cb;
                   task_notify := None |}];
      next_task := S (next_task app) |},
   next_task app).

Definition set_notify (c : Completion) (t : nat) (x : ScheduledTask) : ScheduledTask :=
  if bool_decide (task_id x = t)
  then {| task_id := task_id x; task_callback := task_callback x;
          task_notify := Some c |}
  else x.

(** Modelled from the spec: [handle.notify(completion_callback)]. *)
Definition notify (app : Application) (t : nat) (c : Completion) : Application :=
  {| tasks := set_notify c t <$> tasks app; next_task := next_task app |}.

End Application.

Export Application.

#[global] Instance Callback_eq_dec : EqDecision Callback.
Proof. solve_decision. Defined.
#[global] Instance Completion_eq_dec : EqDecision Completion.
Proof. solve_decision. Defined.
#[global] Instance ScheduledTask_eq_dec : EqDecision ScheduledTask.
Proof. solve_decision. Defined.
#[global] Instance Application_eq_dec : EqDecision Application.
Proof. solve_decision. Defined.

(** ** Overridable methods

    [_component_constraints] and [_get_default_constraints] are the hooks a
    subclass reimplements; a call [self._component_constraints()] resolves
    to the implementation of the class of [self]. *)
Class Overridable := {
  _component_constraints : Widget → list Entry;
  _get_default_constraints : Widget → list Entry
}.

(** The implementations in [ConstraintsWidget]: both return an empty
    list. *)
Definition ConstraintsWidget_methods : Overridable :=
  {| _component_constraints := λ _, [];
     _get_default_constraints := λ _, [] |}.

(** ** [class ConstraintsWidget] *)

Module ConstraintsWidget.

(** *** The box model *)

Definition left (self : Widget) : LinearExpression :=
  Var {| var_owner := wid self; var_name := member_name m_left |}.
Definition top (self : Widget) : LinearExpression :=
  Var {| var_owner := wid self; var_name := member_name m_top |}.
Definition width (self : Widget) : LinearExpression :=
  Var {| var_owner := wid self; var_name := member_name m_width |}.
Definition height (self : Widget) : LinearExpression :=
  Var {| var_owner := wid self; var_name := member_name m_height |}.

Definition _default_right (self : Widget) : LinearExpression :=
  Add (left self) (width self).
Definition _default_bottom (self : Widget) : LinearExpression :=
  Add (top self) (height self).
Definition _default_v_center (self : Widget) : LinearExpression :=
  Add (top self) (Div (height self) 2).
Definition _default_h_center (self : Widget) : LinearExpression :=
  Add (left self) (Div (width self) 2).

(** Reading a [Constant] member: the default is computed when the slot is
    still empty and kept in the slot; a filled slot is returned as is. *)
Definition right (self : Widget) : LinearExpression * Widget :=
  match right_slot self with
  | Some e => (e, self)
  | None => let e := _default_right self in (e, with_right self (Some e))
  end.
Definition bottom (self : Widget) : LinearExpression * Widget :=
  match bottom_slot self with
  | Some e => (e, self)
  | None => let e := _default_bottom self in (e, with_bottom self (Some e))
  end.
Definition v_center (self : Widget) : LinearExpression * Widget :=
  match v_center_slot self with
  | Some e => (e, self)
  | None => let e := _default_v_center self in (e, with_v_center self (Some e))
  end.
Definition h_center (self : Widget) : LinearExpression * Widget :=
  match h_center_slot self with
  | Some e => (e, self)
  | None => let e := _default_h_center self in (e, with_h_center self (Some e))
  end.

(** *** Public API *)

(** Truth value of the task slot: null is false, a task object is true. *)
Definition truthy_task (t : option nat) : bool :=
  match t with Some _ => true | None => false end.

Definition relayout (app : Application) (self : Widget) : Application * Widget :=
  if proxy_is_active self && negb (truthy_task (_layout_task self)) then
    let '(app, task) := schedule app (layout_task (wid self)) in
    let app := notify app task (task_completed (wid self)) in
    (app, with__layout_task self (Some task))
  else (app, self).

Definition when (self : Widget) (switch : bool) : option Widget :=
  if switch then Some self else None.

(** *** Observers *)

Definition observe : list string :=
  ["constraints"; "hug_width"; "hug_height"; "resist_width"; "resist_height"].

Definition _layout_invalidated (app : Application) (self : Widget)
    (change : Change) : Application * Widget :=
  relayout app self.

(** *** Private API *)

Definition _hard_constraints (self : Widget) : list LinearConstraint :=
  let cns := [ ge (left self) (Num 0); ge (top self) (Num 0);
               ge (width self) (Num 0); ge (height self) (Num 0) ] in
  cns.

(** A local variable holding a list: it names either the list object in
    the [constraints] slot of [self] or a list object of its own. *)
Inductive ListRef := SelfConstraints | Local (l : list Entry).

Definition deref (self : Widget) (r : ListRef) : list Entry :=
  match r with SelfConstraints => constraints self | Local l => l end.

(** [r += xs] extends the list object that [r] names, in place. *)
Definition iadd (self : Widget) (r : ListRef) (xs : list Entry) : Widget * ListRef :=
  match r with
  | SelfConstraints =>
      (with_constraints self (constraints self ++ xs), SelfConstraints)
  | Local l => (self, Local (l ++ xs))
  end.

Definition truthy_list {A} (l : list A) : bool :=
  match l with [] => false | _ :: _ => true end.

Section Collect.
(** What a helper generates for a component
    ([DeferredConstraints.get_constraints]); the helpers themselves
    are outside this module. *)
Context (get_constraints : DeferredConstraints → Widget → list LinearConstraint).
Context `{Overridable}.

(** Modelled from the spec: [enaml.layout.layout_helpers.expand_constraints]
    is not among the sources.  A primitive constraint is kept as it is,
    a helper is replaced by the primitive constraints it generates for
    the component. *)
Definition expand_constraints (component : Widget) (cns : list Entry)
    : list LinearConstraint :=
  flat_map (λ cn, match cn with
                  | Linear c => [c]
                  | Deferred d => get_constraints d component
                  end) cns.

Definition _collect_constraints (self : Widget) : list LinearConstraint * Widget :=
  let cns := SelfConstraints in
  let cns := if negb (truthy_list (deref self cns))
             then Local (_get_default_constraints self) else cns in
  let '(self, cns) := iadd self cns (_component_constraints self) in
  (expand_constraints self (deref self cns), self).
End Collect.

End ConstraintsWidget.

(** ** [class Container] *)

Module Container.

Definition isinstance_ConstraintsWidget (c : Child) : bool :=
  match child_kind c with Some _ => true | None => false end.

Definition widgets (self : Widget) : list Child :=
  List.filter isinstance_ConstraintsWidget (children self).

Definition observe : list string := ["share_layout"; "padding"].

(** [super(Container, self)._layout_invalidated(change)] *)
Definition _layout_invalidated (app : Application) (self : Widget)
    (change : Change) : Application * Widget :=
  ConstraintsWidget._layout_invalidated app self change.

Definition layout_constraints (self : Widget) : list Entry :=
  if ConstraintsWidget.truthy_list (constraints self) then constraints self
  else [Deferred (vbox (widgets self))].

End Container.

(** ** Attribute assignment and observers *)

(** The observers decorated with [@observe] are static observers, found by
    name on the instance: both classes name theirs [_layout_invalidated]. *)
Definition _layout_invalidated (app : Application) (self : Widget)
    (change : Change) : Application * Widget :=
  match kind self with
  | ConstraintsWidget_ => ConstraintsWidget._layout_invalidated app self change
  | Container_ => Container._layout_invalidated app self change
  end.

Definition observed (k : Kind) (m : Member) : bool :=
  bool_decide (member_name m ∈ ConstraintsWidget.observe)
  || match k with
     | Container_ => bool_decide (member_name m ∈ Container.observe)
     | ConstraintsWidget_ => false
     end.

(** Python's [==] between the value in a filled slot and the assigned
    value.  Strings, booleans and boxes are compared by value.  The entries
    of a constraints list are compared by identity, so that a list other
    than the held one equals it only when both are empty. *)
Definition same_value (self : Widget) (m : Member) (v : Value) : bool :=
  match v with
  | VHeld => true
  | VList l =>
      match l, constraints self with
      | [], [] => true
      | _, _ => false
      end
  | _ => bool_decide (current self m = Some v)
  end.

(** Whether the observers are told of the assignment [self.m = v]: always
    when the slot was empty, and otherwise when the assigned value differs
    from the one held. *)
Definition notified (self : Widget) (m : Member) (v : Value) : bool :=
  negb (bool_decide (m ∈ filled self)) || negb (same_value self m v).

(** [self.m = v]: the value is validated and stored, and the observers of
    the member are notified as [notified] says. *)
Definition setattr (app : Application) (self : Widget) (m : Member) (v : Value)
    : option (Application * Widget) :=
  self' ← store self m v;
  match current self' m with
  | Some new_ =>
      if notified self m v && observed (kind self') m
      then Some (_layout_invalidated app self'
                   (if bool_decide (m ∈ filled self)
                    then {| change_type := "update";
                            change_name := member_name m;
                            change_old := current self m;
                            change_new := new_ |}
                    else {| change_type := "create";
                            change_name := member_name m;
                            change_old := None;
                            change_new := new_ |}))
      else Some (app, self')
  | None => Some (app, self')
  end.

(** [self.m] for a writable member: the first read of an empty slot puts
    the default in it and notifies the observers of the member of the
    creation; a filled slot is just read. *)
Definition getattr (app : Application) (self : Widget) (m : Member)
    : Application * Widget :=
  match current self m with
  | Some v =>
      if bool_decide (m ∈ filled self) then (app, self)
      else if observed (kind self) m
           then _layout_invalidated app (fill self m)
                  {| change_type := "create";
                     change_name := member_name m;
                     change_old := None;
                     change_new := v |}
           else (app, fill self m)
  | None => (app, self)
  end.

(** ** The running application

    The objects alive in the application, the scheduler they share
    ([Application.instance()]) and the calls made to [proxy.relayout()],
    oldest first. *)

Record World := {
  application : Application;
  objects : gmap nat Widget;
  proxy_calls : list nat
}.

Definition empty_world : World :=
  {| application := {| tasks := []; next_task := 0 |};
     objects := ∅; proxy_calls := [] |}.

(** The outcome of running the body of a task. *)
Inductive Outcome := Returned | Raised.

(** [ProxyConstraintsWidget.relayout] raises [NotImplementedError]; a
    toolkit proxy returns. *)
Definition proxy_relayout (p : Proxy) : Outcome :=
  match p with AbstractProxy => Raised | ToolkitProxy => Returned end.

Definition put (σ : World) (a : Application) (self : nat) (w : Widget) : World :=
  {| application := a; objects := <[self := w]> (objects σ);
     proxy_calls := proxy_calls σ |}.

(** The body of the closure [layout_task]. *)
Definition run_callback (cb : Callback) (σ : World) : World * Outcome :=
  match cb with
  | layout_task self =>
      match objects σ !! self with
      | Some w =>
          if proxy_is_active w then
            ({| application := application σ; objects := objects σ;
                proxy_calls := proxy_calls σ ++ [self] |},
             proxy_relayout (proxy w))
          else (σ, Returned)
      | None => (σ, Returned)
      end
  end.

(** The body of the closure [task_completed]: [del self._layout_task]. *)
Definition run_completion (c : Completion) (σ : World) : World :=
  match c with
  | task_completed self =>
      match objects σ !! self with
      | Some w => put σ (application σ) self (with__layout_task w None)
      | None => σ
      end
  end.

(** Modelled from the spec: the scheduler of [enaml.application] is not
    among the sources.  It takes the oldest task from the queue, runs its
    body and then fires the completion callback registered on the handle;
    a failure of the body does not prevent the completion. *)
Definition process_task (σ : World) : World :=
  match tasks (application σ) with
  | [] => σ
  | t :: rest =>
      let σ := {| application := {| tasks := rest;
                                    next_task := next_task (application σ) |};
                  objects := objects σ; proxy_calls := proxy_calls σ |} in
      let '(σ, _) := run_callback (task_callback t) σ in
      match task_notify t with
      | Some c => run_completion c σ
      | None => σ
      end
  end.

(** What the rest of the program may do with the objects. *)
Inductive Op :=
| op_new (k : Kind) (id : nat) (p : Proxy) (cs : list Child)
| op_activate_proxy (self : nat)
| op_deactivate_proxy (self : nat)
| op_setattr (self : nat) (m : Member) (v : Value)
| op_read (self : nat) (m : Member)
| op_relayout (self : nat)
| op_collect_constraints (self : nat)
| op_process_task.

(** What reading a member leaves in the slots of the derived constants:
    only the reads of the four derived constants touch them. *)
Definition read (self : Widget) (m : Member) : Widget :=
  match m with
  | m_right => (ConstraintsWidget.right self).2
  | m_bottom => (ConstraintsWidget.bottom self).2
  | m_v_center => (ConstraintsWidget.v_center self).2
  | m_h_center => (ConstraintsWidget.h_center self).2
  | _ => self
  end.

Section Running.
Context (get_constraints : DeferredConstraints → Widget → list LinearConstraint).
Context `{Overridable}.

(** One operation; [None] when it raises (unknown object, refused
    assignment, identity already in use).  A read of a member and a
    collection of the constraints, which starts with [self.constraints],
    go through [getattr]. *)
Definition step (op : Op) (σ : World) : option World :=
  match op with
  | op_new k id p cs =>
      match objects σ !! id with
      | None => Some (put σ (application σ) id (new k id p cs))
      | Some _ => None
      end
  | op_activate_proxy self =>
      w ← objects σ !! self;
      Some (put σ (application σ) self (with_proxy_is_active w true))
  | op_deactivate_proxy self =>
      w ← objects σ !! self;
      Some (put σ (application σ) self (with_proxy_is_active w false))
  | op_setattr self m v =>
      w ← objects σ !! self;
      r ← setattr (application σ) w m v;
      Some (put σ r.1 self r.2)
  | op_read self m =>
      w ← objects σ !! self;
      let r := getattr (application σ) w m in
      Some (put σ r.1 self (read r.2 m))
  | op_relayout self =>
      w ← objects σ !! self;
      let r := ConstraintsWidget.relayout (application σ) w in
      Some (put σ r.1 self r.2)
  | op_collect_constraints self =>
      w ← objects σ !! self;
      let r := getattr (application σ) w m_constraints in
      Some (put σ r.1 self
                (ConstraintsWidget._collect_constraints get_constraints r.2).2)
  | op_process_task => Some (process_task σ)
  end.

Fixpoint run (ops : list Op) (σ : World) : option World :=
  match ops with
  | [] => Some σ
  | op :: ops => σ' ← step op σ; run ops σ'
  end.

Inductive reachable : World → Prop :=
| reachable_start : reachable empty_world
| reachable_step σ op σ' :
    reachable σ → step op σ = Some σ' → reachable σ'.

End Running.

(** The tasks of the queue that were scheduled by [self]. *)
Definition pending (σ : World) (self : nat) : list ScheduledTask :=
  List.filter (λ t, bool_decide (task_callback t = layout_task self))
              (tasks (application σ)).

(** ** Consistency of the running application *)

(** The widget whose [relayout] scheduled the task. *)
Definition owner (t : ScheduledTask) : nat :=
  match task_callback t with layout_task self => self end.

(** A derived slot is either still empty or holds the default computed
    from the widget's own variables. *)
Definition slots_ok (w : Widget) : Prop :=
  (∀ e, right_slot w = Some e → e = ConstraintsWidget._default_right w) ∧
  (∀ e, bottom_slot w = Some e → e = ConstraintsWidget._default_bottom w) ∧
  (∀ e, v_center_slot w = Some e → e = ConstraintsWidget._default_v_center w) ∧
  (∀ e, h_center_slot w = Some e → e = ConstraintsWidget._default_h_center w).

Record consistent (σ : World) : Prop := {
  c_wid : ∀ i w, objects σ !! i = Some w → wid w = i;
  c_ids : ∀ t, t ∈ tasks (application σ) →
          task_id t < next_task (application σ);
  c_nodup : NoDup (task_id <$> tasks (application σ));
  c_task : ∀ t, t ∈ tasks (application σ) →
           task_notify t = Some (task_completed (owner t)) ∧
           ∃ w, objects σ !! owner t = Some w ∧
                _layout_task w = Some (task_id t);
  c_handle : ∀ i w t, objects σ !! i = Some w → _layout_task w = Some t →
             ∃ task, task ∈ tasks (application σ) ∧ task_id task = t ∧
                     task_callback task = layout_task i;
  c_slots : ∀ i w, objects σ !! i = Some w → slots_ok w
}.

(** ** Sample objects *)

(** No helper generates anything. *)
Definition no_helpers : DeferredConstraints → Widget → list LinearConstraint :=
  λ _ _, [].

Definition idle_app : Application := {| tasks := []; next_task := 0 |}.

(** A plain constraints widget, as created. *)
Definition sample_widget : Widget := new ConstraintsWidget_ 0 ToolkitProxy [].

(** A container with three children, the first of which is not a
    constraints widget. *)
Definition sample_container : Widget :=
  new Container_ 1 ToolkitProxy
    [ {| child_id := 2; child_kind := None |};
      {| child_id := 3; child_kind := Some ConstraintsWidget_ |};
      {| child_id := 4; child_kind := Some Container_ |} ].

(** A subclass that reimplements [_component_constraints]: the component
    is at least five units wide. *)
Definition MinWidth_methods : Overridable :=
  {| _component_constraints :=
       λ self, [Linear (ge (ConstraintsWidget.width self) (Num 5))];
     _get_default_constraints := λ _, [] |}.

(** A user constraint: the width is at most one hundred. *)
Definition narrow (self : Widget) : LinearConstraint :=
  {| cn_lhs := ConstraintsWidget.width self; cn_op := LessEq;
     cn_rhs := Num 100; cn_strength := "required" |}.

(** The entries [_collect_constraints] expands: the user's list, or the
    defaults when that list is empty, and then the component constraints. *)
Definition collected_entries `{Overridable} (self : Widget) : list Entry :=
  (match constraints self with
   | [] => _get_default_constraints self
   | _ :: _ => constraints self
   end) ++ _component_constraints self.

(** The four strength policies and the value each holds. *)
Definition policies : list Member :=
  [m_hug_width; m_hug_height; m_resist_width; m_resist_height].

Definition policy (self : Widget) (m : Member) : option string :=
  match m with
  | m_hug_width => Some (hug_width self)
  | m_hug_height => Some (hug_height self)
  | m_resist_width => Some (resist_width self)
  | m_resist_height => Some (resist_height self)
  | _ => None
  end.

(** The five strengths. *)
Definition strengths : list string :=
  ["ignore"; "weak"; "medium"; "strong"; "required"].

(** The application after [sample_widget] has been created, and after its
    proxy has been activated. *)
Definition sample_world : World := put empty_world idle_app 0 sample_widget.

Definition active_world : World :=
  put sample_world idle_app 0 (with_proxy_is_active sample_widget true).

(** Reading one of the four derived constants, and the slot behind it. *)
Definition getattr_derived (self : Widget) (m : Member)
    : option (LinearExpression * Widget) :=
  match m with
  | m_right => Some (ConstraintsWidget.right self)
  | m_bottom => Some (ConstraintsWidget.bottom self)
  | m_v_center => Some (ConstraintsWidget.v_center self)
  | m_h_center => Some (ConstraintsWidget.h_center self)
  | _ => None
  end.

Definition derived_slot (self : Widget) (m : Member) : option LinearExpression :=
  match m with
  | m_right => right_slot self
  | m_bottom => bottom_slot self
  | m_v_center => v_center_slot self
  | m_h_center => h_center_slot self
  | _ => None
  end.

(** Running the scheduler [n] times. *)
Definition process_tasks (n : nat) (σ : World) : World :=
  Nat.iter n process_task σ.

(** The application with the task of [sample_widget] pending, before and
    after the proxy has been deactivated. *)
Definition pending_world : World :=
  put active_world
      (ConstraintsWidget.relayout idle_app
         (with_proxy_is_active sample_widget true)).1 0
      (ConstraintsWidget.relayout idle_app
         (with_proxy_is_active sample_widget true)).2.

Definition detached_widget : Widget :=
  with_proxy_is_active
    (with__layout_task (with_proxy_is_active sample_widget true) (Some 0)) false.

Definition detached_world : World :=
  put pending_world (application pending_world) 0 detached_widget.

(** [keeps w w']: the object is the same and no filled derived slot has
    changed. *)
Definition keeps (w w' : Widget) : Prop :=
  wid w' = wid w ∧
  ∀ m e, derived_slot w m = Some e → derived_slot w' m = Some e.

(** ** Measures of the scheduler's work *)

(** How often [proxy.relayout()] has been called on the proxy of [i]. *)
Definition calls (σ : World) (i : nat) : nat :=
  length (List.filter (λ j, bool_decide (j = i)) (proxy_calls σ)).

(** Whether the proxy of widget [i] is active. *)
Definition active (σ : World) (i : nat) : bool :=
  match objects σ !! i with
  | Some w => proxy_is_active w
  | None => false
  end.

(** Whether an operation asks for a relayout of widget [i]: a call of
    [relayout] or an assignment to one of its members. *)
Definition requests_relayout (i : nat) (op : Op) : bool :=
  match op with
  | op_relayout j | op_setattr j _ _ => bool_decide (j = i)
  | _ => false
  end.

(** Whether an operation can invalidate the layout of widget [i]: a call
    of [relayout], an assignment to a member, a read of a member or a
    collection of the constraints (the last two notify the observers when
    they fill an empty slot). *)
Definition invalidates (i : nat) (op : Op) : bool :=
  match op with
  | op_relayout j | op_setattr j _ _ | op_read j _
  | op_collect_constraints j => bool_decide (j = i)
  | _ => false
  end.

Definition requests (ops : list Op) (i : nat) : nat :=
  length (List.filter (invalidates i) ops).

Definition runs_scheduler (op : Op) : bool :=
  match op with op_process_task => true | _ => false end.

(** The meaning of a constraint under an assignment of the variables. *)
Definition holds (env : ConstraintVariable → Q) (c : LinearConstraint) : Prop :=
  match cn_op c with
  | GreaterEq => (value env (cn_rhs c) <= value env (cn_lhs c))%Q
  | LessEq => (value env (cn_lhs c) <= value env (cn_rhs c))%Q
  | Equal => (value env (cn_lhs c) == value env (cn_rhs c))%Q
  end.

(** A burst of invalidations of [sample_widget]. *)
Definition sample_burst : list Op :=
  [ op_setattr 0 m_hug_width (VStr "weak");
    op_setattr 0 m_constraints (VList [Linear (narrow sample_widget)]);
    op_relayout 0;
    op_setattr 0 m_resist_height (VStr "ignore") ].

(** The children of a widget change when a child is added or removed. *)
Definition with_children (self : Widget) (v : list Child) : Widget :=
  {| wid := wid self; kind := kind self; children := v;
     constraints := constraints self;
     right_slot := right_slot self; bottom_slot := bottom_slot self;
     v_center_slot := v_center_slot self; h_center_slot := h_center_slot self;
     hug_width := hug_width self; hug_height := hug_height self;
     resist_width := resist_width self; resist_height := resist_height self;
     proxy := proxy self; proxy_is_active := proxy_is_active self;
     _layout_task := _layout_task self;
     filled := filled self;
     share_layout := share_layout self; padding := padding self |}.

(** [n] collections in a row. *)
Definition collect_times `{Overridable}
    (get_constraints : DeferredConstraints → Widget → list LinearConstraint)
    (n : nat) (self : Widget) : Widget :=
  Nat.iter n (λ w, (ConstraintsWidget._collect_constraints get_constraints w).2)
           self.

(** Two assignments that differ on the variables of another widget only. *)
Definition sample_env (other : Q) : ConstraintVariable → Q :=
  λ v, if bool_decide (var_owner v = 0) then 3%Q else other.

(** [sample_widget] with an active proxy and a constraints list of its
    own. *)
Definition assigned_widget : Widget :=
  fill (with_constraints (with_proxy_is_active sample_widget true)
          [Linear (narrow sample_widget)]) m_constraints.

(** * Properties *)

(** ** Slot updates leave the other slots alone *)

Lemma store_frame self m v self' :
  store self m v = Some self' →
  wid self' = wid self ∧ kind self' = kind self ∧
  children self' = children self ∧
  _layout_task self' = _layout_task self ∧
  proxy_is_active self' = proxy_is_active self ∧
  proxy self' = proxy self ∧
  right_slot self' = right_slot self ∧ bottom_slot self' = bottom_slot self ∧
  v_center_slot self' = v_center_slot self ∧
  h_center_slot self' = h_center_slot self.
Proof.
  destruct m; simpl; intros Hs;
    repeat match type of Hs with
           | context [validate_enum ?e ?x] =>
               destruct (validate_enum e x); simpl in Hs
           | context [match ?x with _ => _ end] => destruct x eqn:?; simpl in Hs
           end;
    try discriminate; injection Hs as <-; unfold fill; try case_bool_decide;
    simpl; repeat split; congruence.
Qed.

Lemma read_frame self m :
  wid (read self m) = wid self ∧ kind (read self m) = kind self ∧
  _layout_task (read self m) = _layout_task self ∧
  proxy_is_active (read self m) = proxy_is_active self ∧
  constraints (read self m) = constraints self.
Proof.
  destruct m; simpl; try tauto;
    unfold ConstraintsWidget.right, ConstraintsWidget.bottom,
      ConstraintsWidget.v_center, ConstraintsWidget.h_center;
    match goal with |- context [match ?x with _ => _ end] => destruct x end;
    cbn; repeat split; reflexivity.
Qed.

(** ** [relayout] *)

Lemma relayout_not_active app self :
  proxy_is_active self = false → ConstraintsWidget.relayout app self = (app, self).
Proof. intros Ha. unfold ConstraintsWidget.relayout. by rewrite Ha. Qed.

Lemma relayout_already_pending app self t :
  _layout_task self = Some t → ConstraintsWidget.relayout app self = (app, self).
Proof.
  intros Ht. unfold ConstraintsWidget.relayout. rewrite Ht. simpl.
  by rewrite andb_false_r.
Qed.

Lemma set_notify_other c t (l : list ScheduledTask) :
  (∀ x, x ∈ l → task_id x ≠ t) → set_notify c t <$> l = l.
Proof.
  induction l as [|x l IH]; intros Hl; [done|]. simpl. f_equal.
  - unfold set_notify. rewrite bool_decide_eq_false_2; [done|].
    apply Hl. by left.
  - apply IH. intros y Hy. apply Hl. by right.
Qed.

(** On a queue whose handles are all older than the next one, a request
    from an active widget without a task appends one task, complete with
    its completion callback, and stores its handle. *)
Lemma relayout_schedules app self :
  (∀ x, x ∈ tasks app → task_id x < next_task app) →
  proxy_is_active self = true → _layout_task self = None →
  ConstraintsWidget.relayout app self =
    ({| tasks := tasks app ++
                 [{| task_id := next_task app;
                     task_callback := layout_task (wid self);
                     task_notify := Some (task_completed (wid self)) |}];
        next_task := S (next_task app) |},
     with__layout_task self (Some (next_task app))).
Proof.
  intros Hlt Ha Ht. unfold ConstraintsWidget.relayout.
  rewrite Ha, Ht. simpl. unfold notify. simpl. f_equal. f_equal.
  rewrite fmap_app. f_equal.
  - apply set_notify_other. intros x Hx Heq. apply Hlt in Hx. lia.
  - simpl. unfold set_notify. simpl. by rewrite bool_decide_eq_true_2.
Qed.

Lemma relayout_cases app self :
  ConstraintsWidget.relayout app self = (app, self) ∧
    (proxy_is_active self = false ∨ is_Some (_layout_task self))
  ∨ proxy_is_active self = true ∧ _layout_task self = None.
Proof.
  destruct (proxy_is_active self) eqn:Ha.
  - destruct (_layout_task self) as [t|] eqn:Ht.
    + left. split; [by eapply relayout_already_pending | right; eauto].
    + by right.
  - left. split; [by apply relayout_not_active | by left].
Qed.

Lemma relayout_idempotent app self :
  let r := ConstraintsWidget.relayout app self in
  ConstraintsWidget.relayout r.1 r.2 = r.
Proof.
  simpl. destruct (relayout_cases app self) as [[Heq _]|[Ha Ht]].
  { rewrite Heq. simpl. exact Heq. }
  set (r := ConstraintsWidget.relayout app self).
  assert (_layout_task r.2 = Some (next_task app)) as Hr.
  { unfold r, ConstraintsWidget.relayout. by rewrite Ha, Ht. }
  destruct r as [app' self']. by eapply relayout_already_pending.
Qed.

(** ** The consistency is kept by every operation *)

Lemma consistent_empty : consistent empty_world.
Proof.
  split; simpl; try (intros; simplify_map_eq; fail).
  - intros t Ht. by apply elem_of_nil in Ht.
  - constructor.
  - intros t Ht. by apply elem_of_nil in Ht.
Qed.

Lemma slots_ok_new k id p cs : slots_ok (new k id p cs).
Proof. repeat split; simpl; discriminate. Qed.

Lemma slots_ok_frame w w' :
  wid w' = wid w → right_slot w' = right_slot w →
  bottom_slot w' = bottom_slot w → v_center_slot w' = v_center_slot w →
  h_center_slot w' = h_center_slot w → slots_ok w → slots_ok w'.
Proof.
  unfold slots_ok, ConstraintsWidget._default_right,
    ConstraintsWidget._default_bottom, ConstraintsWidget._default_v_center,
    ConstraintsWidget._default_h_center, ConstraintsWidget.left,
    ConstraintsWidget.top, ConstraintsWidget.width, ConstraintsWidget.height.
  intros -> -> -> -> ->. tauto.
Qed.

Lemma slots_ok_read w m : slots_ok w → slots_ok (read w m).
Proof.
  intros Hs. pose proof Hs as (Hr & Hb & Hv & Hh).
  destruct m; simpl; try exact Hs;
    unfold ConstraintsWidget.right, ConstraintsWidget.bottom,
      ConstraintsWidget.v_center, ConstraintsWidget.h_center;
    match goal with |- context [match ?x with _ => _ end] =>
      destruct x eqn:? end; cbn; try exact Hs;
    repeat split; cbn; intros e He;
    first [ by injection He as <- | by apply Hr | by apply Hb
          | by apply Hv | by apply Hh ].
Qed.

(** An object is replaced by one with the same identity, task slot and
    well-formed derived slots. *)
Lemma consistent_put σ i w w' :
  consistent σ → objects σ !! i = Some w →
  wid w' = wid w → _layout_task w' = _layout_task w → slots_ok w' →
  consistent (put σ (application σ) i w').
Proof.
  intros [Hwid Hids Hnd Htask Hhandle Hslots] Hi Hw Ht Hs.
  split; simpl; try done.
  - intros j x. destruct (decide (i = j)) as [<-|Hne].
    + rewrite lookup_insert_eq. intros [= <-]. rewrite Hw. eauto.
    + rewrite lookup_insert_ne by done. eauto.
  - intros t Hin. destruct (Htask t Hin) as (Hn & x & Hx & Hxt).
    split; [done|]. destruct (decide (i = owner t)) as [->|Hne].
    + rewrite lookup_insert_eq. exists w'. split; [done|].
      rewrite Ht. congruence.
    + rewrite lookup_insert_ne by done. eauto.
  - intros j x t. destruct (decide (i = j)) as [<-|Hne].
    + rewrite lookup_insert_eq. intros [= <-]. rewrite Ht. eauto.
    + rewrite lookup_insert_ne by done. eauto.
  - intros j x. destruct (decide (i = j)) as [<-|Hne].
    + rewrite lookup_insert_eq. by intros [= <-].
    + rewrite lookup_insert_ne by done. eauto.
Qed.

Lemma consistent_new σ k id p cs :
  consistent σ → objects σ !! id = None →
  consistent (put σ (application σ) id (new k id p cs)).
Proof.
  intros [Hwid Hids Hnd Htask Hhandle Hslots] Hi.
  split; simpl; try done.
  - intros j x. destruct (decide (id = j)) as [<-|Hne].
    + rewrite lookup_insert_eq. by intros [= <-].
    + rewrite lookup_insert_ne by done. eauto.
  - intros t Hin. destruct (Htask t Hin) as (Hn & x & Hx & Hxt).
    split; [done|]. destruct (decide (id = owner t)) as [->|Hne].
    + congruence.
    + rewrite lookup_insert_ne by done. eauto.
  - intros j x t. destruct (decide (id = j)) as [<-|Hne].
    + rewrite lookup_insert_eq. by intros [= <-].
    + rewrite lookup_insert_ne by done. eauto.
  - intros j x. destruct (decide (id = j)) as [<-|Hne].
    + rewrite lookup_insert_eq. intros [= <-]. apply slots_ok_new.
    + rewrite lookup_insert_ne by done. eauto.
Qed.

Lemma put_put σ a a' i w w' : put (put σ a i w) a' i w' = put σ a' i w'.
Proof. unfold put. simpl. by rewrite insert_insert_eq. Qed.

Lemma put_same σ i w :
  objects σ !! i = Some w → put σ (application σ) i w = σ.
Proof.
  intros Hi. destruct σ as [a o c]. unfold put. simpl in *.
  by rewrite insert_id.
Qed.

(** A relayout request keeps the application consistent. *)
Lemma consistent_relayout σ i w :
  consistent σ → objects σ !! i = Some w →
  let r := ConstraintsWidget.relayout (application σ) w in
  consistent (put σ r.1 i r.2).
Proof.
  intros Hc Hi. simpl.
  destruct (relayout_cases (application σ) w) as [[Heq _]|[Ha Hn]].
  { rewrite Heq. simpl. by rewrite put_same. }
  destruct Hc as [Hwid Hids Hnd Htask Hhandle Hslots].
  rewrite relayout_schedules by done. simpl.
  assert (wid w = i) as Hw by eauto.
  split; simpl.
  - intros j x. destruct (decide (i = j)) as [<-|Hne].
    + rewrite lookup_insert_eq. by intros [= <-].
    + rewrite lookup_insert_ne by done. eauto.
  - intros t [Hin|Hin]%elem_of_app.
    + apply Hids in Hin. lia.
    + apply list_elem_of_singleton in Hin as ->. simpl. lia.
  - rewrite fmap_app. simpl. apply NoDup_app. split; [done|]. split.
    + intros x (t & -> & Hin)%list_elem_of_fmap Hx.
      apply list_elem_of_singleton in Hx. apply Hids in Hin. lia.
    + apply NoDup_singleton.
  - intros t [Hin|Hin]%elem_of_app.
    + destruct (Htask t Hin) as (Hnt & x & Hx & Hxt). split; [done|].
      destruct (decide (i = owner t)) as [->|Hne]; [congruence|].
      rewrite lookup_insert_ne by done. eauto.
    + apply list_elem_of_singleton in Hin as ->. unfold owner. simpl.
      rewrite Hw. split; [done|]. rewrite lookup_insert_eq. eauto.
  - intros j x t. destruct (decide (i = j)) as [<-|Hne].
    + rewrite lookup_insert_eq. intros [= <-]. simpl. intros [= <-].
      eexists. split; [apply elem_of_app; right; by apply list_elem_of_singleton|].
      simpl. by rewrite Hw.
    + rewrite lookup_insert_ne by done. intros Hj Ht.
      destruct (Hhandle _ _ _ Hj Ht) as (task & Hin & Hid & Hcb).
      exists task. split; [apply elem_of_app; by left | done].
  - intros j x. destruct (decide (i = j)) as [<-|Hne].
    + rewrite lookup_insert_eq. intros [= <-].
      eapply slots_ok_frame; [..|by eapply Hslots]; done.
    + rewrite lookup_insert_ne by done. eauto.
Qed.

Lemma callback_owner t : task_callback t = layout_task (owner t).
Proof. unfold owner. by destruct (task_callback t). Qed.

(** What running the oldest task does, when its completion callback is
    the one [relayout] registered. *)
Lemma process_task_head σ t rest w :
  tasks (application σ) = t :: rest →
  task_notify t = Some (task_completed (owner t)) →
  objects σ !! owner t = Some w →
  process_task σ =
    {| application := {| tasks := rest;
                         next_task := next_task (application σ) |};
       objects := <[owner t := with__layout_task w None]> (objects σ);
       proxy_calls := if proxy_is_active w
                      then proxy_calls σ ++ [owner t] else proxy_calls σ |}.
Proof.
  intros Hq Hn Hw. unfold process_task. rewrite Hq, Hn, (callback_owner t).
  simpl. rewrite Hw. destruct (proxy_is_active w); simpl; by rewrite Hw.
Qed.

Lemma consistent_process_task σ : consistent σ → consistent (process_task σ).
Proof.
  intros Hc. destruct (tasks (application σ)) as [|t rest] eqn:Hq.
  { unfold process_task. by rewrite Hq. }
  pose proof Hc as [Hwid Hids Hnd Htask Hhandle Hslots].
  rewrite Hq in *.
  destruct (Htask t) as (Hn & w & Hw & Hwt); [by left|].
  rewrite (process_task_head σ t rest w) by done.
  simpl in Hnd. apply NoDup_cons in Hnd as [Hfresh Hnd].
  split; simpl.
  - intros j x. destruct (decide (owner t = j)) as [<-|Hne].
    + rewrite lookup_insert_eq. intros [= <-]. simpl. eauto.
    + rewrite lookup_insert_ne by done. eauto.
  - intros x Hx. apply Hids. by right.
  - done.
  - intros x Hx. destruct (Htask x) as (Hnx & y & Hy & Hyt); [by right|].
    split; [done|]. destruct (decide (owner t = owner x)) as [Heq|Hne].
    + exfalso. apply Hfresh. apply list_elem_of_fmap. exists x.
      split; [congruence | done].
    + rewrite lookup_insert_ne by done. eauto.
  - intros j x tid. destruct (decide (owner t = j)) as [<-|Hne].
    + rewrite lookup_insert_eq. by intros [= <-].
    + rewrite lookup_insert_ne by done. intros Hj Hjt.
      destruct (Hhandle _ _ _ Hj Hjt) as (task & Hin & Hid & Hcb).
      exists task. split; [|done].
      apply elem_of_cons in Hin as [->|Hin]; [|done].
      rewrite callback_owner in Hcb. congruence.
  - intros j x. destruct (decide (owner t = j)) as [<-|Hne].
    + rewrite lookup_insert_eq. intros [= <-].
      eapply slots_ok_frame; [..|by eapply Hslots]; done.
    + rewrite lookup_insert_ne by done. eauto.
Qed.

(** An assignment stores the value and, at most, requests a relayout. *)
Lemma layout_invalidated_relayout app self change :
  _layout_invalidated app self change = ConstraintsWidget.relayout app self.
Proof.
  unfold _layout_invalidated, Container._layout_invalidated,
    ConstraintsWidget._layout_invalidated. by destruct (kind self).
Qed.

Lemma setattr_cases app self m v r :
  setattr app self m v = Some r →
  ∃ self', store self m v = Some self' ∧
           (r = (app, self') ∨ r = ConstraintsWidget.relayout app self').
Proof.
  unfold setattr. destruct (store self m v) as [self'|]; [|done]. simpl.
  intros Hr. exists self'. split; [done|].
  destruct (current self' m); [|injection Hr as <-; by left].
  destruct (notified self m v && observed (kind self') m);
    [|injection Hr as <-; by left].
  injection Hr as <-. right. apply layout_invalidated_relayout.
Qed.

Lemma fill_frame self m :
  wid (fill self m) = wid self ∧ kind (fill self m) = kind self ∧
  children (fill self m) = children self ∧
  constraints (fill self m) = constraints self ∧
  _layout_task (fill self m) = _layout_task self ∧
  proxy_is_active (fill self m) = proxy_is_active self ∧
  proxy (fill self m) = proxy self ∧
  right_slot (fill self m) = right_slot self ∧
  bottom_slot (fill self m) = bottom_slot self ∧
  v_center_slot (fill self m) = v_center_slot self ∧
  h_center_slot (fill self m) = h_center_slot self.
Proof. unfold fill. case_bool_decide; simpl; repeat split; reflexivity. Qed.

(** A read of a member leaves the widget as it is, or fills the slot and,
    at most, requests a relayout. *)
Lemma getattr_cases app self m :
  getattr app self m = (app, self) ∨
  getattr app self m = (app, fill self m) ∨
  getattr app self m = ConstraintsWidget.relayout app (fill self m).
Proof.
  unfold getattr. destruct (current self m); [|by left].
  case_bool_decide; [by left|].
  destruct (observed (kind self) m); [|by right; left].
  right; right. apply layout_invalidated_relayout.
Qed.

(** A read through [getattr], followed by a change [f] of the object that
    keeps its identity, its task slot and the form of its derived slots. *)
Lemma consistent_getattr σ i w m (f : Widget → Widget) :
  consistent σ → objects σ !! i = Some w →
  (∀ x, wid (f x) = wid x ∧ _layout_task (f x) = _layout_task x ∧
        (slots_ok x → slots_ok (f x))) →
  let r := getattr (application σ) w m in
  consistent (put σ r.1 i (f r.2)).
Proof.
  intros Hc Hi Hf. simpl.
  destruct (fill_frame w m)
    as (Hw & _ & _ & _ & Ht & _ & _ & Hs1 & Hs2 & Hs3 & Hs4).
  assert (slots_ok (fill w m)) as Hs
    by (eapply slots_ok_frame; [..|by eapply (c_slots _ Hc)]; done).
  destruct (getattr_cases (application σ) w m) as [->|[->| ->]]; simpl.
  - destruct (Hf w) as (? & ? & Hsl).
    eapply consistent_put; [done..|]. apply Hsl. by eapply (c_slots _ Hc).
  - destruct (Hf (fill w m)) as (? & ? & Hsl).
    eapply consistent_put; [done|done|congruence|congruence|by apply Hsl].
  - assert (consistent (put σ (application σ) i (fill w m))) as Hc1
      by (by eapply consistent_put).
    pose proof (consistent_relayout _ i (fill w m) Hc1) as Hc2.
    simpl in Hc2. rewrite lookup_insert_eq in Hc2. specialize (Hc2 eq_refl).
    rewrite put_put in Hc2.
    set (r := ConstraintsWidget.relayout (application σ) (fill w m)) in *.
    destruct (Hf r.2) as (? & ? & Hsl).
    pose proof (consistent_put (put σ r.1 i r.2) i r.2 (f r.2) Hc2) as Hc3.
    simpl in Hc3. rewrite lookup_insert_eq, put_put in Hc3.
    apply Hc3; [done..|]. apply Hsl.
    eapply (c_slots _ Hc2 i). simpl. apply lookup_insert_eq.
Qed.

Section Invariant.
Context (get_constraints : DeferredConstraints → Widget → list LinearConstraint).
Context `{Overridable}.

Lemma collect_frame self :
  let self' := (ConstraintsWidget._collect_constraints get_constraints self).2 in
  wid self' = wid self ∧ kind self' = kind self ∧
  _layout_task self' = _layout_task self ∧
  proxy_is_active self' = proxy_is_active self ∧
  right_slot self' = right_slot self ∧ bottom_slot self' = bottom_slot self ∧
  v_center_slot self' = v_center_slot self ∧
  h_center_slot self' = h_center_slot self.
Proof.
  unfold ConstraintsWidget._collect_constraints. simpl.
  destruct (constraints self); simpl; repeat split; reflexivity.
Qed.

Lemma consistent_step op σ σ' :
  consistent σ → step get_constraints op σ = Some σ' → consistent σ'.
Proof.
  intros Hc. destruct op as [k id p cs|i|i|i m v|i m|i|i|]; simpl.
  - destruct (objects σ !! id) eqn:Hi; [done|]. intros [= <-].
    by apply consistent_new.
  - destruct (objects σ !! i) as [w|] eqn:Hi; [|done]. simpl.
    intros [= <-]. eapply consistent_put; [done..|].
    eapply slots_ok_frame; [..|by eapply (c_slots _ Hc)]; done.
  - destruct (objects σ !! i) as [w|] eqn:Hi; [|done]. simpl.
    intros [= <-]. eapply consistent_put; [done..|].
    eapply slots_ok_frame; [..|by eapply (c_slots _ Hc)]; done.
  - destruct (objects σ !! i) as [w|] eqn:Hi; [|done]. simpl.
    destruct (setattr _ w m v) as [r|] eqn:Hr; [|done]. simpl.
    intros [= <-].
    destruct (setattr_cases _ _ _ _ _ Hr) as (w' & Hst & Hcase).
    destruct (store_frame _ _ _ _ Hst)
      as (Hw & _ & _ & Ht & _ & _ & Hs1 & Hs2 & Hs3 & Hs4).
    assert (consistent (put σ (application σ) i w')) as Hc'.
    { eapply consistent_put; [done..|].
      eapply slots_ok_frame; [..|by eapply (c_slots _ Hc)]; done. }
    destruct Hcase as [->| ->]; [done|].
    pose proof (consistent_relayout (put σ (application σ) i w') i w' Hc') as Hr'.
    simpl in Hr'. rewrite lookup_insert_eq in Hr'. specialize (Hr' eq_refl).
    by rewrite put_put in Hr'.
  - destruct (objects σ !! i) as [w|] eqn:Hi; [|done]. simpl.
    intros [= <-]. apply (consistent_getattr σ i w m (λ x, read x m) Hc Hi).
    intros x. destruct (read_frame x m) as (Hw & _ & Ht & _).
    split; [done|]. split; [done|]. apply slots_ok_read.
  - destruct (objects σ !! i) as [w|] eqn:Hi; [|done]. simpl.
    intros [= <-]. by apply consistent_relayout.
  - destruct (objects σ !! i) as [w|] eqn:Hi; [|done]. simpl.
    intros [= <-].
    apply (consistent_getattr σ i w m_constraints
             (λ x, (ConstraintsWidget._collect_constraints get_constraints x).2)
             Hc Hi).
    intros x.
    destruct (collect_frame x) as (Hw & _ & Ht & _ & Hs1 & Hs2 & Hs3 & Hs4).
    split; [done|]. split; [done|]. by apply slots_ok_frame.
  - intros [= <-]. by apply consistent_process_task.
Qed.

Lemma reachable_consistent σ : reachable get_constraints σ → consistent σ.
Proof.
  induction 1 as [|σ op σ' _ IH Hstep];
    [apply consistent_empty | by eapply consistent_step].
Qed.

Lemma reachable_run ops σ σ' :
  reachable get_constraints σ → run get_constraints ops σ = Some σ' →
  reachable get_constraints σ'.
Proof.
  revert σ. induction ops as [|op ops IH]; simpl; intros σ Hr.
  - by intros [= <-].
  - destruct (step get_constraints op σ) as [σ1|] eqn:Hs; [|done]. simpl.
    apply IH. by eapply reachable_step.
Qed.
End Invariant.

(** ** At most one task per widget *)

Lemma filter_unique {A} (f : A → nat) (P : A → bool) (l : list A) :
  NoDup (f <$> l) →
  (∀ x y, x ∈ l → y ∈ l → P x = true → P y = true → f x = f y) →
  length (List.filter P l) ≤ 1.
Proof.
  induction l as [|x l IH]; simpl; intros Hnd Hsame; [lia|].
  apply NoDup_cons in Hnd as [Hx Hnd].
  destruct (P x) eqn:HP.
  - assert (List.filter P l = []) as ->; [|simpl; lia].
    destruct (List.filter P l) as [|y l'] eqn:Hf; [done|].
    exfalso. assert (In y (List.filter P l)) as Hy by (rewrite Hf; by left).
    apply filter_In in Hy as [Hy HPy]. apply list_elem_of_In in Hy.
    apply Hx. apply list_elem_of_fmap. exists y. split; [|done].
    apply Hsame; [by left | by right | done..].
  - apply IH; [done|]. intros y z Hy Hz. apply Hsame; by right.
Qed.

Lemma pending_owner σ self t :
  t ∈ pending σ self ↔ t ∈ tasks (application σ) ∧ owner t = self.
Proof.
  unfold pending. rewrite !list_elem_of_In, filter_In, bool_decide_eq_true.
  rewrite callback_owner. split; intros [? Ho]; split; congruence.
Qed.

Lemma consistent_pending_le σ self :
  consistent σ → length (pending σ self) ≤ 1.
Proof.
  intros Hc. unfold pending. apply (filter_unique task_id); [apply Hc|].
  intros x y Hx Hy Px Py. apply bool_decide_eq_true in Px, Py.
  rewrite callback_owner in Px, Py. injection Px as Px. injection Py as Py.
  destruct (c_task _ Hc x Hx) as (_ & w & Hw & Hwt).
  destruct (c_task _ Hc y Hy) as (_ & w' & Hw' & Hwt'). congruence.
Qed.

(** ** Requests on a widget whose proxy is not active *)

(** C10: on a widget whose proxy is not active [relayout] returns the
    scheduler and the widget exactly as they were: no task is scheduled,
    the task slot keeps its value (unset stays unset) and no other slot
    changes. *)
Theorem relayout_inactive_noop (app : Application) (self : Widget) :
  proxy_is_active self = false →
  ConstraintsWidget.relayout app self = (app, self) ∧
  (_layout_task self = None →
   _layout_task (ConstraintsWidget.relayout app self).2 = None).
Proof.
  intros Ha. rewrite relayout_not_active by done. by split.
Qed.

Lemma relayout_inactive_noop_witness :
  ConstraintsWidget.relayout idle_app sample_widget = (idle_app, sample_widget) ∧
  (_layout_task sample_widget = None →
   _layout_task (ConstraintsWidget.relayout idle_app sample_widget).2 = None).
Proof. apply relayout_inactive_noop. reflexivity. Defined.

(** ** Collection of the constraints *)

Section Collecting.
Context (get_constraints : DeferredConstraints → Widget → list LinearConstraint).
Context `{Overridable}.

Lemma collect_result self :
  let r := ConstraintsWidget._collect_constraints get_constraints self in
  r.1 = ConstraintsWidget.expand_constraints get_constraints r.2
          (collected_entries self).
Proof.
  unfold ConstraintsWidget._collect_constraints, collected_entries. simpl.
  destruct (constraints self) eqn:E; simpl; by rewrite ?E.
Qed.

(** The widget after the collection: the list in the [constraints] slot
    has been extended in place when it was not empty. *)
Lemma collect_state self :
  (ConstraintsWidget._collect_constraints get_constraints self).2 =
  match constraints self with
  | [] => self
  | _ :: _ => with_constraints self
                (constraints self ++ _component_constraints self)
  end.
Proof.
  unfold ConstraintsWidget._collect_constraints. simpl.
  destruct (constraints self) eqn:E; simpl; by rewrite ?E.
Qed.

Lemma elem_of_expand component cns c :
  c ∈ ConstraintsWidget.expand_constraints get_constraints component cns ↔
  ∃ cn, cn ∈ cns ∧
        c ∈ ConstraintsWidget.expand_constraints get_constraints component [cn].
Proof.
  unfold ConstraintsWidget.expand_constraints. simpl.
  setoid_rewrite app_nil_r. rewrite list_elem_of_In, in_flat_map.
  by setoid_rewrite list_elem_of_In.
Qed.
End Collecting.

(** C3: the list [_collect_constraints] returns is the expansion, for the
    widget, of its own constraints list when that list is not empty and of
    its default constraints otherwise, followed in both cases by its
    component constraints; the component constraints (and the defaults) of
    the base class are empty. *)
Theorem collect_constraints_expands
    (get_constraints : DeferredConstraints → Widget → list LinearConstraint)
    (methods : Overridable) (self : Widget) :
  let r := ConstraintsWidget._collect_constraints get_constraints self in
  r.1 = ConstraintsWidget.expand_constraints get_constraints r.2
          ((if ConstraintsWidget.truthy_list (constraints self)
            then constraints self else _get_default_constraints self)
           ++ _component_constraints self) ∧
  @_component_constraints ConstraintsWidget_methods self = [] ∧
  @_get_default_constraints ConstraintsWidget_methods self = [].
Proof.
  simpl. split; [|done].
  rewrite (collect_result get_constraints self). unfold collected_entries.
  by destruct (constraints self).
Qed.

(** ** The default layout of a container *)

Lemma widgets_elem self c :
  c ∈ Container.widgets self ↔ c ∈ children self ∧ is_Some (child_kind c).
Proof.
  unfold Container.widgets. rewrite !list_elem_of_In, filter_In.
  unfold Container.isinstance_ConstraintsWidget.
  destruct (child_kind c); split; intros [? Hk]; split; eauto;
    try done; by destruct Hk.
Qed.

Lemma filter_sublist {A} (P : A → bool) (l : list A) :
  List.filter P l `sublist_of` l.
Proof.
  induction l as [|x l IH]; simpl; [constructor|].
  destruct (P x); by constructor.
Qed.

(** C6: a container whose constraints list is empty supplies exactly one
    [vbox] helper over those of its children that are constraints widgets,
    in the order of the children; a container whose constraints list is not
    empty supplies that list. *)
Theorem container_layout_constraints (self : Widget) :
  kind self = Container_ →
  (constraints self = [] →
   Container.layout_constraints self = [Deferred (vbox (Container.widgets self))] ∧
   Container.widgets self `sublist_of` children self ∧
   ∀ c, c ∈ Container.widgets self ↔ c ∈ children self ∧ is_Some (child_kind c)) ∧
  (constraints self ≠ [] →
   Container.layout_constraints self = constraints self).
Proof.
  intros _. unfold Container.layout_constraints. split.
  - intros ->. simpl. split; [done|]. split.
    + apply filter_sublist.
    + apply widgets_elem.
  - intros Hne. by destruct (constraints self).
Qed.

Lemma container_layout_constraints_witness :
  Container.layout_constraints sample_container =
    [Deferred (vbox [ {| child_id := 3; child_kind := Some ConstraintsWidget_ |};
                      {| child_id := 4; child_kind := Some Container_ |} ])] ∧
  Container.layout_constraints
    (with_constraints sample_container [Linear (narrow sample_container)]) =
    [Linear (narrow sample_container)].
Proof.
  split.
  - apply (container_layout_constraints sample_container); reflexivity.
  - apply (container_layout_constraints
             (with_constraints sample_container [Linear (narrow sample_container)]));
      [reflexivity | discriminate].
Defined.

(** ** Strength policies *)

Lemma validate_enum_policy e v :
  enum_items e = strengths →
  is_Some (validate_enum e v) ↔ ∃ s, v = VStr s ∧ s ∈ strengths.
Proof.
  intros He. unfold validate_enum. destruct v as [l| |s|b|b|x];
    try (split; [by intros [? ?] | by intros (? & ? & _)]).
  rewrite He. case_bool_decide as Hs.
  - split; [intros _; eauto | eauto].
  - split; [by intros [? ?] | intros (s' & [= <-] & Hs'); contradiction].
Qed.

Lemma store_policy self m :
  m ∈ policies →
  ∃ (e : Enum) (update : string → Widget),
    enum_items e = strengths ∧
    (∀ v, store self m v = (s ← validate_enum e v; Some (update s))) ∧
    (∀ s, policy (update s) m = Some s).
Proof.
  intros Hm. unfold policies in Hm.
  repeat (apply elem_of_cons in Hm as [->|Hm]);
    try (by apply elem_of_nil in Hm).
  - exists (decl_hug_width (kind self)),
      (λ s, fill (with_hug_width self s) m_hug_width).
    split; [by destruct (kind self)|]. split; [done|].
    intros s. unfold fill. by case_bool_decide.
  - exists (decl_hug_height (kind self)),
      (λ s, fill (with_hug_height self s) m_hug_height).
    split; [by destruct (kind self)|]. split; [done|].
    intros s. unfold fill. by case_bool_decide.
  - exists (decl_resist_width (kind self)),
      (λ s, fill (with_resist_width self s) m_resist_width).
    split; [done|]. split; [done|].
    intros s. unfold fill. by case_bool_decide.
  - exists (decl_resist_height (kind self)),
      (λ s, fill (with_resist_height self s) m_resist_height).
    split; [done|]. split; [done|].
    intros s. unfold fill. by case_bool_decide.
Qed.

(** C2: each of the four policies accepts exactly the five
    strengths ignore, weak, medium, strong and required; its default is
    strong, except that a Container declares ignore as the default of
    [hug_width] and of [hug_height]. *)
Theorem policy_defaults_and_range
    (k : Kind) (id : nat) (p : Proxy) (cs : list Child)
    (self : Widget) (m : Member) :
  m ∈ policies →
  policy (new k id p cs) m =
    Some (match k, m with
          | Container_, (m_hug_width | m_hug_height) => "ignore"
          | _, _ => "strong"
          end) ∧
  (∀ v, is_Some (store self m v) ↔ ∃ s, v = VStr s ∧ s ∈ strengths) ∧
  (∀ s self', store self m (VStr s) = Some self' → policy self' m = Some s).
Proof.
  intros Hm. split.
  - unfold policies in Hm.
    repeat (apply elem_of_cons in Hm as [->|Hm]);
      try (by apply elem_of_nil in Hm); by destruct k.
  - destruct (store_policy self m Hm) as (e & update & He & Hst & Hpol).
    split.
    + intros v. rewrite Hst, <- (validate_enum_policy e v He).
      destruct (validate_enum e v); simpl; split; intros [? ?]; eauto;
        discriminate.
    + intros s self'. rewrite Hst.
      destruct (validate_enum e (VStr s)) as [s'|] eqn:Hv; simpl; [|done].
      intros [= <-]. unfold validate_enum in Hv.
      case_bool_decide; [|done]. injection Hv as <-. apply Hpol.
Qed.

Lemma policy_defaults_and_range_witness :
  policy (new Container_ 1 ToolkitProxy []) m_hug_width = Some "ignore" ∧
  is_Some (store sample_widget m_hug_width (VStr "weak")).
Proof.
  assert (m_hug_width ∈ policies) as Hm by (by left).
  destruct (policy_defaults_and_range Container_ 1 ToolkitProxy []
              sample_widget m_hug_width Hm) as (Hd & Hr & _).
  split; [exact Hd|].
  apply Hr. exists "weak". split; [reflexivity|]. by right; left.
Defined.

(** C2 does not hold for every widget: a Container's [hug_width] defaults to ignore, not
    to strong. *)
Lemma container_hug_width_default :
  ¬ (∀ (k : Kind) (id : nat) (p : Proxy) (cs : list Child),
       hug_width (new k id p cs) = "strong" ∧
       hug_height (new k id p cs) = "strong" ∧
       resist_width (new k id p cs) = "strong" ∧
       resist_height (new k id p cs) = "strong").
Proof.
  intros Hall. destruct (Hall Container_ 1 ToolkitProxy []) as [Hw _].
  discriminate Hw.
Qed.

(** ** The user's list during the collection *)

(** C9 is broken by the code: for a widget of a class whose
    [_component_constraints] is not empty and whose constraints list is not
    empty, [_collect_constraints] appends the component constraints to the
    widget's own list, and a second collection returns them twice. *)
Theorem collect_constraints_extends_user_list :
  let self := with_constraints sample_widget [Linear (narrow sample_widget)] in
  let r := @ConstraintsWidget._collect_constraints no_helpers MinWidth_methods self in
  constraints self = [Linear (narrow sample_widget)] ∧
  constraints r.2 =
    [Linear (narrow sample_widget);
     Linear (ge (ConstraintsWidget.width sample_widget) (Num 5))] ∧
  constraints r.2 ≠ constraints self ∧
  (@ConstraintsWidget._collect_constraints no_helpers MinWidth_methods r.2).1 ≠ r.1.
Proof. simpl. repeat split; discriminate. Qed.

(** What the collection leaves in the slot, in general. *)
Lemma collect_constraints_slot
    (get_constraints : DeferredConstraints → Widget → list LinearConstraint)
    (methods : Overridable) (self : Widget) :
  constraints (ConstraintsWidget._collect_constraints get_constraints self).2 =
  match constraints self with
  | [] => []
  | _ :: _ => constraints self ++ _component_constraints self
  end.
Proof.
  rewrite collect_state. by destruct (constraints self) eqn:E.
Qed.

(** ** Hard constraints *)

Lemma expand_constraints_concat
    (get_constraints : DeferredConstraints → Widget → list LinearConstraint)
    (component : Widget) (cns : list Entry) :
  ConstraintsWidget.expand_constraints get_constraints component cns =
  concat (map (λ cn, ConstraintsWidget.expand_constraints get_constraints
                       component [cn]) cns).
Proof.
  unfold ConstraintsWidget.expand_constraints.
  induction cns as [|cn cns IH]; simpl; [done|].
  by rewrite app_nil_r, IH.
Qed.

(** C4: for every widget, also one whose constraints list is empty, the
    hard constraints are exactly the four required constraints left >= 0,
    top >= 0, width >= 0, height >= 0, and [_collect_constraints] puts none
    of them in the list it returns: that list is made of the expansions of
    the entries of the user's (or default) list and of the component
    constraints, one after the other, and of nothing else, so that a hard
    constraint is met in it only where one of these entries expands to it;
    with no such entry the collected list is empty while the hard
    constraints are still four. *)
Theorem hard_constraints_separate
    (get_constraints : DeferredConstraints → Widget → list LinearConstraint)
    (methods : Overridable) (self : Widget) :
  let r := ConstraintsWidget._collect_constraints get_constraints self in
  ConstraintsWidget._hard_constraints self =
    [ ge (ConstraintsWidget.left self) (Num 0);
      ge (ConstraintsWidget.top self) (Num 0);
      ge (ConstraintsWidget.width self) (Num 0);
      ge (ConstraintsWidget.height self) (Num 0) ] ∧
  Forall (λ c, cn_strength c = "required")
         (ConstraintsWidget._hard_constraints self) ∧
  r.1 = concat (map (λ cn, ConstraintsWidget.expand_constraints
                             get_constraints r.2 [cn])
                    (collected_entries self)) ∧
  (∀ c, c ∈ ConstraintsWidget._hard_constraints self → c ∈ r.1 →
        ∃ cn, cn ∈ collected_entries self ∧
              c ∈ ConstraintsWidget.expand_constraints get_constraints r.2 [cn]) ∧
  (collected_entries self = [] →
   r.1 = [] ∧ length (ConstraintsWidget._hard_constraints self) = 4) ∧
  (constraints self = [] →
   (@ConstraintsWidget._collect_constraints get_constraints
      ConstraintsWidget_methods self).1 = []).
Proof.
  simpl. split; [done|]. split; [by repeat constructor|].
  split; [|split; [|split]].
  - rewrite (collect_result get_constraints self).
    apply expand_constraints_concat.
  - intros c _ Hin. rewrite (collect_result get_constraints self) in Hin.
    by apply elem_of_expand in Hin.
  - intros He. rewrite (collect_result get_constraints self), He.
    by split.
  - intros He. unfold ConstraintsWidget._collect_constraints. simpl.
    by rewrite He.
Qed.

Lemma hard_constraints_separate_witness :
  Forall (λ c, c ∉ (@ConstraintsWidget._collect_constraints no_helpers
                      MinWidth_methods
                      (with_constraints sample_widget
                         [Linear (narrow sample_widget)])).1)
         (ConstraintsWidget._hard_constraints
            (with_constraints sample_widget [Linear (narrow sample_widget)])).
Proof.
  apply Forall_forall. intros c Hc Hin.
  destruct (hard_constraints_separate no_helpers MinWidth_methods
              (with_constraints sample_widget [Linear (narrow sample_widget)]))
    as (_ & _ & _ & Hfrom & _).
  destruct (Hfrom c Hc Hin) as (cn & Hcn & Hexp).
  unfold collected_entries in Hcn. simpl in Hcn.
  unfold ConstraintsWidget._hard_constraints in Hc.
  unfold ConstraintsWidget.expand_constraints in Hexp. simpl in Hexp.
  repeat (apply elem_of_cons in Hcn as [->|Hcn]);
    try (by apply elem_of_nil in Hcn);
    apply list_elem_of_singleton in Hexp as ->;
    repeat (apply elem_of_cons in Hc as [Hc|Hc]; [discriminate|]);
    by apply elem_of_nil in Hc.
Defined.

(** ** Observers *)

Lemma observed_members k m :
  m ∈ [m_constraints; m_hug_width; m_hug_height; m_resist_width;
       m_resist_height] ∨
  k = Container_ ∧ m ∈ [m_share_layout; m_padding] →
  observed k m = true.
Proof.
  unfold observed, ConstraintsWidget.observe, Container.observe.
  intros [Hm|[-> Hm]];
    repeat (apply elem_of_cons in Hm as [->|Hm]);
    try (by apply elem_of_nil in Hm); reflexivity.
Qed.

Lemma stored_member_current self m v self' :
  m ∈ [m_constraints; m_hug_width; m_hug_height; m_resist_width;
       m_resist_height] ∨
  kind self = Container_ ∧ m ∈ [m_share_layout; m_padding] →
  store self m v = Some self' → is_Some (current self' m).
Proof.
  intros Hm Hst. destruct (store_frame _ _ _ _ Hst) as (_ & Hk & _).
  destruct Hm as [Hm|[Hc Hm]];
    repeat (apply elem_of_cons in Hm as [->|Hm]);
    try (by apply elem_of_nil in Hm); simpl; rewrite ?Hk, ?Hc; eauto.
Qed.

(** C7: an assignment to the constraints list, [hug_width], [hug_height],
    [resist_width] or [resist_height] of a widget, or to [share_layout] or
    [padding] of a Container, calls [relayout] on the updated widget
    whenever the observers are notified of it; they are at the first
    assignment of the member, at every assignment of a list other than the
    held one (except an empty list over an empty one) and at every
    assignment of a strength, flag or box that differs from the held one.
    When a task is already pending the call leaves the scheduler alone and
    the widget keeps the handle of that task. *)
Theorem observers_request_relayout
    (app : Application) (self : Widget) (m : Member) (v : Value) (self' : Widget) :
  m ∈ [m_constraints; m_hug_width; m_hug_height; m_resist_width;
       m_resist_height] ∨
  kind self = Container_ ∧ m ∈ [m_share_layout; m_padding] →
  store self m v = Some self' →
  setattr app self m v =
    Some (if notified self m v then ConstraintsWidget.relayout app self'
          else (app, self')) ∧
  (m ∉ filled self → notified self m v = true) ∧
  (∀ l, v = VList l → l ≠ [] ∨ constraints self ≠ [] →
        notified self m v = true) ∧
  (∀ old, current self m = Some old → (∀ l, v ≠ VList l) → v ≠ VHeld →
          old ≠ v → notified self m v = true) ∧
  (∀ t, _layout_task self = Some t →
        setattr app self m v = Some (app, self') ∧
        _layout_task self' = Some t).
Proof.
  intros Hm Hst.
  destruct (store_frame _ _ _ _ Hst) as (_ & Hk & _ & Ht & _).
  pose proof (observed_members (kind self) m Hm) as Ho.
  destruct (stored_member_current self m v self' Hm Hst) as [new_ Hnew].
  assert (setattr app self m v =
          Some (if notified self m v then ConstraintsWidget.relayout app self'
                else (app, self'))) as Hset.
  { unfold setattr. rewrite Hst. simpl. rewrite Hnew, Hk, Ho, andb_true_r.
    destruct (notified self m v); [|done].
    by rewrite layout_invalidated_relayout. }
  split; [done|]. split; [|split; [|split]].
  - intros Hf. unfold notified. by rewrite bool_decide_eq_false_2.
  - intros l -> Hl. unfold notified, same_value.
    destruct l, (constraints self); simpl; try apply orb_true_r.
    by destruct Hl.
  - intros old Hold Hl Hh Hne.
    assert (current self m ≠ Some v) as Hcur by congruence.
    unfold notified, same_value.
    destruct v; try (by destruct (Hl l)); try done;
      rewrite (bool_decide_eq_false_2 (current self m = Some _)) by done;
      apply orb_true_r.
  - intros t Hp. rewrite Hset.
    rewrite (relayout_already_pending app self' t) by congruence.
    split; [by destruct (notified self m v) | congruence].
Qed.

(** A list reassigned with equal entries on a widget that has a list, the
    default strength assigned for the first time, and the padding of a
    container changed. *)
Lemma observers_request_relayout_witness :
  (∃ self',
     store assigned_widget m_constraints
           (VList [Linear (narrow sample_widget)]) = Some self' ∧
     setattr idle_app assigned_widget m_constraints
             (VList [Linear (narrow sample_widget)]) =
     Some (ConstraintsWidget.relayout idle_app self')) ∧
  (∃ self',
     store (with_proxy_is_active sample_widget true) m_hug_width
           (VStr "strong") = Some self' ∧
     setattr idle_app (with_proxy_is_active sample_widget true) m_hug_width
             (VStr "strong") =
     Some (ConstraintsWidget.relayout idle_app self')) ∧
  (∃ self',
     store (fill (with_proxy_is_active sample_container true) m_padding)
           m_padding
           (VBox {| box_top := 0; box_right := 0;
                    box_bottom := 0; box_left := 0 |}) = Some self' ∧
     setattr idle_app
             (fill (with_proxy_is_active sample_container true) m_padding)
             m_padding
             (VBox {| box_top := 0; box_right := 0;
                      box_bottom := 0; box_left := 0 |}) =
     Some (ConstraintsWidget.relayout idle_app self')).
Proof.
  split; [|split].
  - eexists. split; [reflexivity|].
    destruct (observers_request_relayout idle_app assigned_widget m_constraints
                (VList [Linear (narrow sample_widget)]) _
                (or_introl (list_elem_of_here _ _)) eq_refl)
      as (Hset & _ & Hlist & _).
    rewrite Hset, (Hlist _ eq_refl); [reflexivity|]. left. discriminate.
  - eexists. split; [reflexivity|].
    destruct (observers_request_relayout idle_app
                (with_proxy_is_active sample_widget true) m_hug_width
                (VStr "strong") _
                (or_introl (list_elem_of_further _ _ _ (list_elem_of_here _ _)))
                eq_refl)
      as (Hset & Hfirst & _).
    rewrite Hset, Hfirst; [reflexivity|]. simpl. apply not_elem_of_nil.
  - eexists. split; [reflexivity|].
    destruct (observers_request_relayout idle_app
                (fill (with_proxy_is_active sample_container true) m_padding)
                m_padding
                (VBox {| box_top := 0; box_right := 0;
                         box_bottom := 0; box_left := 0 |}) _
                (or_intror (conj eq_refl
                   (list_elem_of_further _ _ _ (list_elem_of_here _ _))))
                eq_refl)
      as (Hset & _ & _ & Hdiff & _).
    rewrite Hset, (Hdiff _ eq_refl); [reflexivity|done|done|discriminate].
Defined.

(** ** Collapsing of relayout requests *)

Section Coalescing.
Context (get_constraints : DeferredConstraints → Widget → list LinearConstraint).
Context `{Overridable}.

Lemma step_relayout_again σ self w :
  objects σ !! self = Some w →
  let r := ConstraintsWidget.relayout (application σ) w in
  let σ' := put σ r.1 self r.2 in
  step get_constraints (op_relayout self) σ' = Some σ'.
Proof.
  intros Hw. simpl. rewrite lookup_insert_eq. simpl.
  pose proof (relayout_idempotent (application σ) w) as Hidem.
  simpl in Hidem. rewrite Hidem. by rewrite put_put.
Qed.

Lemma run_relayout_fixed σ self n :
  step get_constraints (op_relayout self) σ = Some σ →
  run get_constraints (replicate n (op_relayout self)) σ = Some σ.
Proof.
  intros Hs. induction n as [|n IH]; [done|].
  cbn [replicate run]. rewrite Hs. exact IH.
Qed.

Lemma pending_snoc σ t k o c self :
  pending {| application := {| tasks := tasks (application σ) ++ [t];
                               next_task := k |};
             objects := o; proxy_calls := c |} self =
  pending σ self ++
    (if bool_decide (task_callback t = layout_task self) then [t] else []).
Proof.
  unfold pending. simpl. rewrite List.filter_app. simpl. by case_bool_decide.
Qed.

Lemma pending_none σ self w :
  consistent σ → objects σ !! self = Some w → _layout_task w = None →
  pending σ self = [].
Proof.
  intros Hc Hw Hn. destruct (pending σ self) as [|t l] eqn:Hp; [done|].
  assert (t ∈ pending σ self) as Ht by (rewrite Hp; by left).
  apply pending_owner in Ht as [Hin Ho].
  destruct (c_task _ Hc t Hin) as (_ & w' & Hw' & Hwt). congruence.
Qed.

Lemma pending_some σ self w t :
  consistent σ → objects σ !! self = Some w → _layout_task w = Some t →
  length (pending σ self) = 1.
Proof.
  intros Hc Hw Ht. pose proof (consistent_pending_le σ self Hc) as Hle.
  destruct (c_handle _ Hc _ _ _ Hw Ht) as (task & Hin & _ & Hcb).
  assert (task ∈ pending σ self) as Hp.
  { apply pending_owner. split; [done|]. unfold owner. by rewrite Hcb. }
  destruct (pending σ self); [by apply elem_of_nil in Hp | simpl in *; lia].
Qed.
End Coalescing.

(** C1: in every state of the application each widget has at
    most one task in the queue.  Calling [relayout] one or more times in a
    row on a widget does what the first call does, the further calls being
    no-ops; when the proxy of the widget is active the widget then has
    exactly one task in the queue, a new one being scheduled only if it had
    none; when the proxy is not active nothing is scheduled. *)
Theorem relayout_coalesces
    (get_constraints : DeferredConstraints → Widget → list LinearConstraint)
    (methods : Overridable) (σ : World) (self : nat) (w : Widget) (n : nat) :
  reachable get_constraints σ → objects σ !! self = Some w → 1 ≤ n →
  (∀ i, length (pending σ i) ≤ 1) ∧
  ∃ σ', run get_constraints (replicate n (op_relayout self)) σ = Some σ' ∧
        step get_constraints (op_relayout self) σ = Some σ' ∧
        (∀ i, length (pending σ' i) ≤ 1) ∧
        (proxy_is_active w = true →
           length (pending σ' self) = 1 ∧
           length (tasks (application σ')) + length (pending σ self) =
             length (tasks (application σ)) + 1) ∧
        (proxy_is_active w = false → σ' = σ).
Proof.
  intros Hreach Hw Hn.
  pose proof (reachable_consistent _ _ Hreach) as Hc.
  split; [intros i; by apply consistent_pending_le|].
  set (r := ConstraintsWidget.relayout (application σ) w).
  exists (put σ r.1 self r.2).
  assert (step get_constraints (op_relayout self) σ = Some (put σ r.1 self r.2))
    as Hstep by (simpl; by rewrite Hw).
  assert (consistent (put σ r.1 self r.2)) as Hc'
    by (by apply consistent_relayout).
  split; [|split; [done|split; [intros i; by apply consistent_pending_le|]]].
  - destruct n as [|n]; [lia|]. cbn [replicate run]. rewrite Hstep. simpl.
    apply run_relayout_fixed. by apply step_relayout_again.
  - split.
    + intros Ha. destruct (_layout_task w) as [t|] eqn:Ht.
      * subst r. rewrite (relayout_already_pending _ _ t) by done. simpl.
        rewrite put_same by done.
        pose proof (pending_some σ self w t Hc Hw Ht). lia.
      * subst r. rewrite relayout_schedules; [|apply Hc|done..]. simpl.
        unfold put. simpl.
        rewrite pending_snoc.
        rewrite (pending_none σ self w Hc Hw Ht). simpl.
        rewrite (c_wid _ Hc _ _ Hw). rewrite bool_decide_eq_true_2 by done.
        simpl. rewrite length_app. simpl. lia.
    + intros Ha. subst r. rewrite relayout_not_active by done. simpl.
      by apply put_same.
Qed.

Lemma sample_world_reachable :
  @reachable no_helpers ConstraintsWidget_methods sample_world.
Proof.
  apply (@reachable_step no_helpers ConstraintsWidget_methods empty_world
           (op_new ConstraintsWidget_ 0 ToolkitProxy []));
    [apply reachable_start | reflexivity].
Qed.

Lemma active_world_reachable :
  @reachable no_helpers ConstraintsWidget_methods active_world.
Proof.
  apply (@reachable_step no_helpers ConstraintsWidget_methods sample_world
           (op_activate_proxy 0));
    [apply sample_world_reachable | reflexivity].
Qed.

Lemma relayout_coalesces_witness :
  ∃ σ',
    @run no_helpers ConstraintsWidget_methods (replicate 3 (op_relayout 0))
         active_world = Some σ' ∧
    length (pending σ' 0) = 1.
Proof.
  destruct (relayout_coalesces no_helpers ConstraintsWidget_methods
              active_world 0 (with_proxy_is_active sample_widget true) 3)
    as (_ & σ' & Hrun & _ & _ & Hactive & _).
  - apply active_world_reachable.
  - reflexivity.
  - lia.
  - exists σ'. split; [exact Hrun|]. apply Hactive. reflexivity.
Defined.

(** C1 does not hold for every widget: two calls on a widget whose proxy is not active
    schedule no task at all. *)
Lemma relayout_inactive_schedules_nothing :
  ¬ (∀ (get_constraints : DeferredConstraints → Widget → list LinearConstraint)
       (methods : Overridable) (σ σ' : World) (self : nat) (w : Widget) (n : nat),
       reachable get_constraints σ → objects σ !! self = Some w → 1 < n →
       run get_constraints (replicate n (op_relayout self)) σ = Some σ' →
       length (pending σ' self) = 1).
Proof.
  intros Hall.
  specialize (Hall no_helpers ConstraintsWidget_methods
                sample_world sample_world 0 sample_widget 2).
  assert (0 = 1) as Hfalse; [|discriminate Hfalse].
  apply Hall.
  - apply sample_world_reachable.
  - reflexivity.
  - lia.
  - vm_compute. reflexivity.
Qed.

(** ** Completion of the scheduled task *)

Lemma process_task_queue σ :
  tasks (application (process_task σ)) = tail (tasks (application σ)).
Proof.
  unfold process_task.
  destruct (tasks (application σ)) as [|t rest] eqn:Hq; [by rewrite Hq|].
  destruct (task_callback t) as [self]. simpl.
  destruct (objects σ !! self) as [w|] eqn:Hw; simpl.
  - destruct (proxy_is_active w); simpl;
      destruct (task_notify t) as [[i]|]; simpl; try done;
      by destruct (objects σ !! i).
  - destruct (task_notify t) as [[i]|]; simpl; try done;
      by destruct (objects σ !! i).
Qed.

Lemma process_tasks_queue n σ :
  tasks (application (process_tasks n σ)) = drop n (tasks (application σ)).
Proof.
  unfold process_tasks. induction n as [|n IH]; simpl; [by rewrite drop_0|].
  rewrite process_task_queue, IH.
  generalize (tasks (application σ)). clear. intros l.
  revert l. induction n as [|n IH]; intros [|x l]; simpl; done.
Qed.

Lemma consistent_process_tasks n σ :
  consistent σ → consistent (process_tasks n σ).
Proof.
  intros Hc. unfold process_tasks.
  induction n as [|n IH]; simpl; [done | by apply consistent_process_task].
Qed.

(** The widget's handle picks out the task at the head of the queue. *)
Lemma head_task_owner σ self w t rest :
  consistent σ → objects σ !! self = Some w →
  tasks (application σ) = t :: rest → _layout_task w = Some (task_id t) →
  owner t = self.
Proof.
  intros Hc Hw Hq Ht.
  destruct (c_handle _ Hc _ _ _ Hw Ht) as (task & Hin & Hid & Hcb).
  pose proof (c_nodup _ Hc) as Hnd. rewrite Hq in Hin, Hnd. simpl in Hnd.
  apply NoDup_cons in Hnd as [Hfresh _].
  apply elem_of_cons in Hin as [->|Hin].
  - unfold owner. by rewrite Hcb.
  - exfalso. apply Hfresh. rewrite <- Hid. apply list_elem_of_fmap. eauto.
Qed.

(** C8: when the scheduler runs the task a widget is waiting for, the
    widget's task slot is cleared whether or not its proxy is still active
    (and whether or not the body of the task fails), and the widget has no
    task left in the queue; when the proxy is not active the body does not
    call [proxy.relayout()].  Every pending task is run, and its widget
    returned to the non-pending state, once the scheduler has gone through
    the queue. *)
Theorem task_completion_clears
    (get_constraints : DeferredConstraints → Widget → list LinearConstraint)
    (methods : Overridable) (σ : World) (self : nat) (w : Widget)
    (t : ScheduledTask) (rest : list ScheduledTask) :
  reachable get_constraints σ → objects σ !! self = Some w →
  tasks (application σ) = t :: rest → _layout_task w = Some (task_id t) →
  let σ' := process_task σ in
  objects σ' !! self = Some (with__layout_task w None) ∧
  pending σ' self = [] ∧
  tasks (application σ') = rest ∧
  (proxy_is_active w = false → proxy_calls σ' = proxy_calls σ) ∧
  (proxy_is_active w = true → proxy_calls σ' = proxy_calls σ ++ [self]) ∧
  (∀ i x, objects (process_tasks (length (t :: rest)) σ) !! i = Some x →
          _layout_task x = None).
Proof.
  intros Hreach Hw Hq Ht. simpl.
  pose proof (reachable_consistent _ _ Hreach) as Hc.
  pose proof (head_task_owner σ self w t rest Hc Hw Hq Ht) as Ho.
  destruct (c_task _ Hc t) as (Hn & _); [rewrite Hq; by left|].
  subst self.
  pose proof (process_task_head σ t rest w Hq Hn Hw) as Hp.
  pose proof (consistent_process_task σ Hc) as Hc'.
  rewrite Hp in Hc' |- *. simpl. rewrite lookup_insert_eq.
  split; [done|]. split; [|split; [done|split; [|split]]].
  - eapply pending_none; [exact Hc'| |]; simpl;
      [apply lookup_insert_eq | done].
  - by intros ->.
  - by intros ->.
  - intros i x Hx.
    pose proof (consistent_process_tasks (S (length rest)) σ Hc) as Hall.
    destruct (_layout_task x) as [tid|] eqn:Hxt; [|done].
    destruct (c_handle _ Hall _ _ _ Hx Hxt) as (task & Hin & _).
    rewrite process_tasks_queue, Hq in Hin. simpl in Hin.
    rewrite drop_all in Hin. by apply elem_of_nil in Hin.
Qed.

Lemma detached_world_reachable :
  @reachable no_helpers ConstraintsWidget_methods detached_world.
Proof.
  apply (@reachable_step no_helpers ConstraintsWidget_methods pending_world
           (op_deactivate_proxy 0)); [|reflexivity].
  apply (@reachable_step no_helpers ConstraintsWidget_methods active_world
           (op_relayout 0)); [apply active_world_reachable | reflexivity].
Qed.

Lemma task_completion_clears_witness :
  objects (process_task detached_world) !! 0 =
    Some (with__layout_task detached_widget None) ∧
  proxy_calls (process_task detached_world) = [].
Proof.
  destruct (task_completion_clears no_helpers ConstraintsWidget_methods
              detached_world 0 detached_widget
              {| task_id := 0; task_callback := layout_task 0;
                 task_notify := Some (task_completed 0) |} [])
    as (Hobj & _ & _ & Hcalls & _).
  - apply detached_world_reachable.
  - reflexivity.
  - reflexivity.
  - reflexivity.
  - split; [exact Hobj | apply Hcalls; reflexivity].
Defined.

(** ** The derived expressions *)

Lemma keeps_refl w : keeps w w.
Proof. by split. Qed.

Lemma keeps_slots w w' :
  wid w' = wid w → right_slot w' = right_slot w →
  bottom_slot w' = bottom_slot w → v_center_slot w' = v_center_slot w →
  h_center_slot w' = h_center_slot w → keeps w w'.
Proof.
  intros Hw Hr Hb Hv Hh. split; [done|].
  intros m e. destruct m; simpl; congruence.
Qed.

Lemma keeps_trans w1 w2 w3 : keeps w1 w2 → keeps w2 w3 → keeps w1 w3.
Proof. intros [? H12] [? H23]. split; [congruence | eauto]. Qed.

Lemma keeps_read w m : keeps w (read w m).
Proof.
  destruct m; try apply keeps_refl; simpl;
    unfold ConstraintsWidget.right, ConstraintsWidget.bottom,
      ConstraintsWidget.v_center, ConstraintsWidget.h_center;
    match goal with |- context [match ?x with _ => _ end] =>
      destruct x eqn:E end; cbn; try apply keeps_refl;
    (split; [done|]); intros m' e'; destruct m'; simpl; congruence.
Qed.

Lemma keeps_relayout app w : keeps w (ConstraintsWidget.relayout app w).2.
Proof.
  unfold ConstraintsWidget.relayout.
  destruct (proxy_is_active w && _); simpl;
    [by apply keeps_slots | apply keeps_refl].
Qed.

Lemma keeps_getattr app w m : keeps w (getattr app w m).2.
Proof.
  destruct (fill_frame w m)
    as (Hw & _ & _ & _ & _ & _ & _ & Hs1 & Hs2 & Hs3 & Hs4).
  destruct (getattr_cases app w m) as [->|[->| ->]]; simpl.
  - apply keeps_refl.
  - by apply keeps_slots.
  - apply (keeps_trans w (fill w m)); [by apply keeps_slots|].
    apply keeps_relayout.
Qed.

Lemma process_task_objects σ i w :
  objects σ !! i = Some w →
  ∃ w', objects (process_task σ) !! i = Some w' ∧
        (w' = w ∨ w' = with__layout_task w None).
Proof.
  intros Hw. unfold process_task.
  destruct (tasks (application σ)) as [|t rest]; [eauto|].
  destruct (task_callback t) as [self]. simpl.
  assert (∀ c (τ : World), objects τ = objects σ →
            ∃ w', objects (run_completion c τ) !! i = Some w' ∧
                  (w' = w ∨ w' = with__layout_task w None)) as Hdone.
  { intros [j] τ Hτ. simpl. rewrite Hτ.
    destruct (objects σ !! j) as [x|] eqn:Hx; simpl; rewrite ?Hτ; [|eauto].
    destruct (decide (j = i)) as [->|Hne].
    - rewrite lookup_insert_eq. rewrite Hw in Hx. injection Hx as <-. eauto.
    - rewrite lookup_insert_ne by done. eauto. }
  destruct (objects σ !! self) as [x|]; simpl;
    [destruct (proxy_is_active x); simpl|];
    (destruct (task_notify t) as [c|]; [by apply Hdone | simpl; eauto]).
Qed.

Section Immutable.
Context (get_constraints : DeferredConstraints → Widget → list LinearConstraint).
Context `{Overridable}.

Lemma step_keeps op σ σ' i w :
  step get_constraints op σ = Some σ' → objects σ !! i = Some w →
  ∃ w', objects σ' !! i = Some w' ∧ keeps w w'.
Proof.
  intros Hstep Hi.
  assert (∀ a j x x', objects σ !! j = Some x → keeps x x' →
            ∃ w', objects (put σ a j x') !! i = Some w' ∧ keeps w w')
    as Hput.
  { intros a j x x' Hj Hk. simpl.
    destruct (decide (j = i)) as [->|Hne].
    - rewrite lookup_insert_eq. rewrite Hi in Hj. injection Hj as <-.
      by exists x'.
    - rewrite lookup_insert_ne by done. exists w. split; [done|].
      apply keeps_refl. }
  destruct op as [k id p cs|j|j|j m v|j m|j|j|]; simpl in Hstep.
  - destruct (objects σ !! id) eqn:Hid; [done|]. injection Hstep as <-.
    simpl. rewrite lookup_insert_ne by congruence.
    exists w. split; [done | apply keeps_refl].
  - destruct (objects σ !! j) as [x|] eqn:Hj; [|done]. injection Hstep as <-.
    eapply Hput; [done|]. by apply keeps_slots.
  - destruct (objects σ !! j) as [x|] eqn:Hj; [|done]. injection Hstep as <-.
    eapply Hput; [done|]. by apply keeps_slots.
  - destruct (objects σ !! j) as [x|] eqn:Hj; [|done]. simpl in Hstep.
    destruct (setattr _ x m v) as [r|] eqn:Hr; [|done].
    injection Hstep as <-.
    destruct (setattr_cases _ _ _ _ _ Hr) as (x' & Hst & Hcase).
    destruct (store_frame _ _ _ _ Hst)
      as (Hw & _ & _ & _ & _ & _ & Hs1 & Hs2 & Hs3 & Hs4).
    eapply Hput; [done|].
    apply (keeps_trans x x'); [by apply keeps_slots|].
    destruct Hcase as [->| ->]; [apply keeps_refl | apply keeps_relayout].
  - destruct (objects σ !! j) as [x|] eqn:Hj; [|done]. injection Hstep as <-.
    eapply Hput; [done|].
    eapply keeps_trans; [apply (keeps_getattr (application σ) x m)|].
    apply keeps_read.
  - destruct (objects σ !! j) as [x|] eqn:Hj; [|done]. injection Hstep as <-.
    eapply Hput; [done|]. apply keeps_relayout.
  - destruct (objects σ !! j) as [x|] eqn:Hj; [|done]. injection Hstep as <-.
    eapply Hput; [done|].
    eapply keeps_trans; [apply (keeps_getattr (application σ) x m_constraints)|].
    destruct (collect_frame get_constraints
                (getattr (application σ) x m_constraints).2)
      as (Hw & _ & _ & _ & Hs1 & Hs2 & Hs3 & Hs4).
    by apply keeps_slots.
  - injection Hstep as <-.
    destruct (process_task_objects σ i w Hi) as (w' & Hw' & [Heq|Heq]);
      exists w'; (split; [done|]); subst w';
      [apply keeps_refl | by apply keeps_slots].
Qed.
End Immutable.

(** C5: for every widget of the application the derived expressions are
    [right = left + width], [bottom = top + height],
    [h_center = left + width / 2] and [v_center = top + height / 2], over
    the widget's own variables, symbolically and under every assignment of
    the variables; the first read fills the slot and a later read returns
    the slot without computing again; no operation changes a filled slot
    and every assignment to one of the four is refused. *)
Theorem derived_expressions_fixed
    (get_constraints : DeferredConstraints → Widget → list LinearConstraint)
    (methods : Overridable) (σ : World) (self : nat) (w : Widget) :
  reachable get_constraints σ → objects σ !! self = Some w →
  ((ConstraintsWidget.right w).1 =
     Add (ConstraintsWidget.left w) (ConstraintsWidget.width w) ∧
   (ConstraintsWidget.bottom w).1 =
     Add (ConstraintsWidget.top w) (ConstraintsWidget.height w) ∧
   (ConstraintsWidget.h_center w).1 =
     Add (ConstraintsWidget.left w) (Div (ConstraintsWidget.width w) 2) ∧
   (ConstraintsWidget.v_center w).1 =
     Add (ConstraintsWidget.top w) (Div (ConstraintsWidget.height w) 2)) ∧
  (∀ env : ConstraintVariable → Q,
     let var name := env {| var_owner := self; var_name := name |} in
     (value env (ConstraintsWidget.right w).1 == var "left" + var "width" ∧
      value env (ConstraintsWidget.bottom w).1 == var "top" + var "height" ∧
      value env (ConstraintsWidget.h_center w).1 == var "left" + var "width" / 2 ∧
      value env (ConstraintsWidget.v_center w).1 == var "top" + var "height" / 2)%Q) ∧
  (∀ m e w', getattr_derived w m = Some (e, w') →
             derived_slot w' m = Some e ∧ getattr_derived w' m = Some (e, w')) ∧
  (∀ op σ', step get_constraints op σ = Some σ' →
            ∃ w', objects σ' !! self = Some w' ∧ wid w' = wid w ∧
                  ∀ m e, derived_slot w m = Some e → derived_slot w' m = Some e) ∧
  (∀ app m v, is_Some (getattr_derived w m) → setattr app w m v = None).
Proof.
  intros Hreach Hw.
  pose proof (reachable_consistent _ _ Hreach) as Hc.
  destruct (c_slots _ Hc _ _ Hw) as (Hr & Hb & Hv & Hh).
  pose proof (c_wid _ Hc _ _ Hw) as Hid.
  assert ((ConstraintsWidget.right w).1 = ConstraintsWidget._default_right w ∧
          (ConstraintsWidget.bottom w).1 = ConstraintsWidget._default_bottom w ∧
          (ConstraintsWidget.h_center w).1 = ConstraintsWidget._default_h_center w ∧
          (ConstraintsWidget.v_center w).1 = ConstraintsWidget._default_v_center w)
    as (Er & Eb & Eh & Ev).
  { unfold ConstraintsWidget.right, ConstraintsWidget.bottom,
      ConstraintsWidget.h_center, ConstraintsWidget.v_center.
    repeat split;
      match goal with |- context [match ?x with _ => _ end] =>
        destruct x eqn:E end; simpl; auto. }
  split; [done|]. split; [|split; [|split]].
  - intros env. simpl. rewrite Er, Eb, Eh, Ev. simpl. rewrite Hid.
    repeat split; reflexivity.
  - intros m e w'. destruct m; simpl; try done;
      unfold ConstraintsWidget.right, ConstraintsWidget.bottom,
        ConstraintsWidget.h_center, ConstraintsWidget.v_center;
      match goal with |- context [match ?x with _ => _ end] =>
        destruct x eqn:E end; intros [= <- <-]; simpl; by rewrite ?E.
  - intros op σ' Hstep.
    destruct (step_keeps get_constraints op σ σ' self w Hstep Hw)
      as (w' & Hw' & Hk1 & Hk2). eauto.
  - intros app m v [x Hx]. unfold setattr.
    destruct m; simpl in Hx |- *; done.
Qed.

Lemma derived_expressions_fixed_witness :
  (ConstraintsWidget.right sample_widget).1 =
    Add (ConstraintsWidget.left sample_widget)
        (ConstraintsWidget.width sample_widget) ∧
  (ConstraintsWidget.v_center sample_widget).1 =
    Add (ConstraintsWidget.top sample_widget)
        (Div (ConstraintsWidget.height sample_widget) 2).
Proof.
  destruct (derived_expressions_fixed no_helpers ConstraintsWidget_methods
              sample_world 0 sample_widget)
    as ((Hr & _ & _ & Hv) & _).
  - apply sample_world_reachable.
  - reflexivity.
  - split; [exact Hr | exact Hv].
Defined.

(** * Further properties *)

(** ** What one operation does to the queue *)

Lemma pending_same_tasks σ σ' i :
  tasks (application σ') = tasks (application σ) → pending σ' i = pending σ i.
Proof. unfold pending. by intros ->. Qed.

Lemma pending_app_tasks σ σ' l i :
  tasks (application σ') = tasks (application σ) ++ l →
  pending σ' i =
  pending σ i ++ List.filter (λ t, bool_decide (task_callback t = layout_task i)) l.
Proof. unfold pending. intros ->. apply List.filter_app. Qed.

Lemma pending_snoc_tasks σ σ' t i :
  tasks (application σ') = tasks (application σ) ++ [t] →
  pending σ' i = pending σ i ++ (if bool_decide (owner t = i) then [t] else []).
Proof.
  intros Ht. rewrite (pending_app_tasks σ σ' [t] i Ht). simpl.
  rewrite callback_owner.
  destruct (decide (owner t = i)) as [->|Hne].
  - by rewrite !bool_decide_eq_true_2.
  - rewrite !bool_decide_eq_false_2; [done..|congruence].
Qed.

(** The effect of a relayout request of the widget stored at [i]. *)
Lemma relayout_effect σ i w0 w :
  consistent σ → objects σ !! i = Some w0 →
  wid w = i → _layout_task w = _layout_task w0 →
  let r := ConstraintsWidget.relayout (application σ) w in
  r = (application σ, w) ∨
  proxy_is_active w = true ∧ _layout_task w0 = None ∧
  r.2 = with__layout_task w (Some (next_task (application σ))) ∧
  next_task r.1 = S (next_task (application σ)) ∧
  tasks r.1 = tasks (application σ) ++
              [{| task_id := next_task (application σ);
                  task_callback := layout_task i;
                  task_notify := Some (task_completed i) |}].
Proof.
  intros Hc Hi Hw Ht. simpl.
  destruct (relayout_cases (application σ) w) as [[Heq _]|[Ha Hn]];
    [by left|right].
  rewrite relayout_schedules; [|apply Hc|done..]. simpl.
  rewrite Hw. repeat split; congruence.
Qed.

Section Effects.
Context (get_constraints : DeferredConstraints → Widget → list LinearConstraint).
Context `{Overridable}.

(** An operation other than a run of the scheduler leaves the record of
    proxy calls alone and either leaves the queue alone or, when it can
    invalidate the layout of a widget that has no task, appends one task of
    that widget. *)
Lemma step_effect op σ σ' :
  consistent σ → step get_constraints op σ = Some σ' →
  runs_scheduler op = false →
  proxy_calls σ' = proxy_calls σ ∧
  (application σ' = application σ ∨
   ∃ j w, invalidates j op = true ∧ objects σ !! j = Some w ∧
          _layout_task w = None ∧
          next_task (application σ') = S (next_task (application σ)) ∧
          tasks (application σ') =
            tasks (application σ) ++
            [{| task_id := next_task (application σ);
                task_callback := layout_task j;
                task_notify := Some (task_completed j) |}]).
Proof.
  intros Hc Hstep Hns.
  assert (∀ j w m, objects σ !! j = Some w →
            (getattr (application σ) w m).1 = application σ ∨
            _layout_task w = None ∧
            next_task (getattr (application σ) w m).1 =
              S (next_task (application σ)) ∧
            tasks (getattr (application σ) w m).1 =
              tasks (application σ) ++
              [{| task_id := next_task (application σ);
                  task_callback := layout_task j;
                  task_notify := Some (task_completed j) |}]) as Hget.
  { intros j w m Hj.
    destruct (fill_frame w m) as (Hw & _ & _ & _ & Ht & _).
    destruct (getattr_cases (application σ) w m) as [->|[->| ->]];
      [by left..|].
    destruct (relayout_effect σ j w (fill w m) Hc Hj)
      as [Heq|(_ & Hn & _ & Hnext & Htasks)];
      [rewrite Hw; by eapply (c_wid _ Hc) | done | |].
    - simpl in Heq. rewrite Heq. by left.
    - by right. }
  destruct op as [k id p cs|j|j|j m v|j m|j|j|]; simpl in Hstep, Hns;
    try discriminate.
  - destruct (objects σ !! id); [done|]. injection Hstep as <-. by split; [|left].
  - destruct (objects σ !! j); [|done]. injection Hstep as <-. by split; [|left].
  - destruct (objects σ !! j); [|done]. injection Hstep as <-. by split; [|left].
  - destruct (objects σ !! j) as [w|] eqn:Hj; [|done]. simpl in Hstep.
    destruct (setattr _ w m v) as [r|] eqn:Hr; [|done]. injection Hstep as <-.
    simpl. split; [done|].
    destruct (setattr_cases _ _ _ _ _ Hr) as (w' & Hst & [->| ->]); [by left|].
    destruct (store_frame _ _ _ _ Hst) as (Hw & _ & _ & Ht & _).
    destruct (relayout_effect σ j w w' Hc Hj) as [Heq|(_ & Hn & _ & Hnext & Htasks)];
      [rewrite Hw; by eapply (c_wid _ Hc) | done | |].
    + simpl in Heq. rewrite Heq. by left.
    + right. exists j, w. simpl. by rewrite bool_decide_eq_true_2.
  - destruct (objects σ !! j) as [w|] eqn:Hj; [|done]. injection Hstep as <-.
    simpl. split; [done|].
    destruct (Hget j w m Hj) as [Heq|(Hn & Hnext & Htasks)]; [by left|].
    right. exists j, w. simpl. by rewrite bool_decide_eq_true_2.
  - destruct (objects σ !! j) as [w|] eqn:Hj; [|done]. injection Hstep as <-.
    simpl. split; [done|].
    destruct (relayout_effect σ j w w Hc Hj) as [Heq|(_ & Hn & _ & Hnext & Htasks)];
      [by eapply (c_wid _ Hc) | done | |].
    + simpl in Heq. rewrite Heq. by left.
    + right. exists j, w. simpl. by rewrite bool_decide_eq_true_2.
  - destruct (objects σ !! j) as [w|] eqn:Hj; [|done]. injection Hstep as <-.
    simpl. split; [done|].
    destruct (Hget j w m_constraints Hj) as [Heq|(Hn & Hnext & Htasks)];
      [by left|].
    right. exists j, w. simpl. by rewrite bool_decide_eq_true_2.
Qed.

End Effects.

(** ** Requests and the queue *)

Lemma with__layout_task_same w : with__layout_task w (_layout_task w) = w.
Proof. by destruct w. Qed.

(** X1: a call of [relayout] on a widget of the application only ever
    appends to the queue: the tasks already queued stay, in their order; at
    most one task is added, it belongs to the widget and its handle is not
    the handle of any queued task.  Of the widget only the task slot can
    change, and neither another object nor a proxy is touched. *)
Theorem relayout_appends_only
    (get_constraints : DeferredConstraints → Widget → list LinearConstraint)
    (methods : Overridable) (σ σ' : World) (i : nat) (w : Widget) :
  reachable get_constraints σ → objects σ !! i = Some w →
  step get_constraints (op_relayout i) σ = Some σ' →
  (∃ new, tasks (application σ') = tasks (application σ) ++ new ∧
          length new ≤ 1 ∧
          ∀ t, t ∈ new →
               owner t = i ∧
               ∀ t', t' ∈ tasks (application σ) → task_id t' ≠ task_id t) ∧
  (∃ w', objects σ' !! i = Some w' ∧
         w' = with__layout_task w (_layout_task w')) ∧
  (∀ j, j ≠ i → objects σ' !! j = objects σ !! j) ∧
  proxy_calls σ' = proxy_calls σ.
Proof.
  intros Hreach Hi Hstep.
  pose proof (reachable_consistent _ _ Hreach) as Hc.
  simpl in Hstep. rewrite Hi in Hstep. injection Hstep as <-. simpl.
  rewrite lookup_insert_eq.
  destruct (relayout_effect σ i w w Hc Hi)
    as [Heq|(_ & _ & Hw' & _ & Htasks)]; [by eapply (c_wid _ Hc) | done | |].
  - simpl in Heq. rewrite Heq. simpl. split; [|split; [|split]].
    + exists []. rewrite app_nil_r. split; [done|]. split; [simpl; lia|].
      intros t Ht. by apply elem_of_nil in Ht.
    + exists w. by rewrite with__layout_task_same.
    + intros j Hj. by rewrite lookup_insert_ne.
    + done.
  - simpl in Hw', Htasks. split; [|split; [|split]].
    + eexists. split; [exact Htasks|]. split; [simpl; lia|].
      intros t Ht. apply list_elem_of_singleton in Ht as ->.
      split; [done|]. intros t' Ht'. simpl.
      apply (c_ids _ Hc) in Ht'. lia.
    + eexists. split; [done|]. rewrite Hw'. simpl. by destruct w.
    + intros j Hj. by rewrite lookup_insert_ne.
    + done.
Qed.

Lemma relayout_appends_only_witness :
  ∃ new, tasks (application pending_world) =
           tasks (application active_world) ++ new ∧ length new ≤ 1.
Proof.
  destruct (relayout_appends_only no_helpers ConstraintsWidget_methods
              active_world pending_world 0
              (with_proxy_is_active sample_widget true))
    as ((new & Hnew & Hlen & _) & _).
  - apply active_world_reachable.
  - reflexivity.
  - reflexivity.
  - exists new. split; [exact Hnew | exact Hlen].
Defined.

(** X2: in every state of the application the task slot of a widget and
    the queue agree: without a handle the widget has no task in the queue,
    with a handle it has exactly the task of that handle, whose callback
    and completion callback are the widget's own; and every queued task is
    the one its widget holds the handle of. *)
Theorem handle_matches_queue
    (get_constraints : DeferredConstraints → Widget → list LinearConstraint)
    (methods : Overridable) (σ : World) (i : nat) (w : Widget) :
  reachable get_constraints σ → objects σ !! i = Some w →
  pending σ i =
    match _layout_task w with
    | None => []
    | Some tid => [{| task_id := tid; task_callback := layout_task i;
                      task_notify := Some (task_completed i) |}]
    end ∧
  ∀ t, t ∈ tasks (application σ) →
       ∃ x, objects σ !! owner t = Some x ∧ _layout_task x = Some (task_id t).
Proof.
  intros Hreach Hi. pose proof (reachable_consistent _ _ Hreach) as Hc.
  split; [|intros t Ht; by destruct (c_task _ Hc t Ht) as (_ & x & ? & ?); eauto].
  destruct (_layout_task w) as [tid|] eqn:Ht.
  - pose proof (pending_some σ i w tid Hc Hi Ht) as Hlen.
    destruct (pending σ i) as [|t [|t' l]] eqn:Hp; simpl in Hlen; try lia.
    assert (t ∈ pending σ i) as Hin by (rewrite Hp; by left).
    apply pending_owner in Hin as [Hin Ho].
    destruct (c_task _ Hc t Hin) as (Hn & x & Hx & Hxt).
    rewrite Ho in Hn, Hx. rewrite Hi in Hx. injection Hx as <-.
    pose proof (callback_owner t) as Hcb. rewrite Ho in Hcb.
    destruct t as [id cb nt]. simpl in *. f_equal. f_equal; congruence.
  - by eapply pending_none.
Qed.

Lemma handle_matches_queue_witness :
  pending pending_world 0 =
    [{| task_id := 0; task_callback := layout_task 0;
        task_notify := Some (task_completed 0) |}].
Proof.
  apply (handle_matches_queue no_helpers ConstraintsWidget_methods pending_world 0
           (with__layout_task (with_proxy_is_active sample_widget true) (Some 0))).
  - apply (@reachable_step no_helpers ConstraintsWidget_methods active_world
             (op_relayout 0)); [apply active_world_reachable | reflexivity].
  - reflexivity.
Defined.

(** X3: a relayout request on one widget, by a call or by an assignment,
    concerns that widget alone: every other object is left as it is and
    keeps the tasks it had in the queue. *)
Theorem request_leaves_others
    (get_constraints : DeferredConstraints → Widget → list LinearConstraint)
    (methods : Overridable) (σ σ' : World) (op : Op) (i j : nat) :
  reachable get_constraints σ → requests_relayout i op = true →
  step get_constraints op σ = Some σ' → j ≠ i →
  objects σ' !! j = objects σ !! j ∧ pending σ' j = pending σ j.
Proof.
  intros Hreach Hreq Hstep Hne.
  pose proof (reachable_consistent _ _ Hreach) as Hc.
  assert (runs_scheduler op = false) as Hns by (by destruct op).
  destruct (step_effect get_constraints op σ σ' Hc Hstep Hns) as [_ Heff].
  split.
  - destruct op as [| | |k m v| |k| |]; simpl in Hreq, Hstep; try discriminate;
      apply bool_decide_eq_true in Hreq as ->;
      destruct (objects σ !! i) as [w|]; try discriminate; simpl in Hstep.
    + destruct (setattr _ w m v); [|done]. injection Hstep as <-. simpl.
      by rewrite lookup_insert_ne.
    + injection Hstep as <-. simpl. by rewrite lookup_insert_ne.
  - destruct Heff as [Heq|(k & w & Hk & Hw & Hn & _ & Htasks)].
    + apply pending_same_tasks. by rewrite Heq.
    + rewrite (pending_snoc_tasks σ σ' _ j Htasks). unfold owner. simpl.
      assert (k = i) as ->.
      { destruct op; simpl in Hreq, Hk; try discriminate;
          apply bool_decide_eq_true in Hreq, Hk; congruence. }
      rewrite bool_decide_eq_false_2 by congruence. apply app_nil_r.
Qed.

Lemma request_leaves_others_witness :
  objects pending_world !! 7 = objects active_world !! 7 ∧
  pending pending_world 7 = pending active_world 7.
Proof.
  apply (request_leaves_others no_helpers ConstraintsWidget_methods
           active_world pending_world (op_relayout 0) 0 7).
  - apply active_world_reachable.
  - reflexivity.
  - reflexivity.
  - discriminate.
Defined.

(** ** Bursts of requests *)

Section Bursts.
Context (get_constraints : DeferredConstraints → Widget → list LinearConstraint).
Context `{Overridable}.

Lemma burst_from_consistent ops σ σ' :
  consistent σ → forallb (λ op, negb (runs_scheduler op)) ops = true →
  run get_constraints ops σ = Some σ' →
  proxy_calls σ' = proxy_calls σ ∧
  ∃ new, tasks (application σ') = tasks (application σ) ++ new ∧
         NoDup (owner <$> new) ∧
         ∀ t, t ∈ new → pending σ (owner t) = [].
Proof.
  revert σ. induction ops as [|op ops IH]; simpl; intros σ Hc Hall Hrun.
  { injection Hrun as <-. split; [done|]. exists []. rewrite app_nil_r.
    split; [done|]. split; [constructor|].
    intros t Ht. by apply elem_of_nil in Ht. }
  apply andb_true_iff in Hall as [Hop Hall].
  apply negb_true_iff in Hop.
  destruct (step get_constraints op σ) as [σ1|] eqn:Hstep; [|done].
  simpl in Hrun.
  pose proof (consistent_step get_constraints op σ σ1 Hc Hstep) as Hc1.
  destruct (IH σ1 Hc1 Hall Hrun) as (Hcalls & new & Hnew & Hnd & Hfree).
  destruct (step_effect get_constraints op σ σ1 Hc Hstep Hop)
    as [Hcalls1 [Heq|(j & w & _ & Hw & Hn & _ & Htasks)]].
  - split; [congruence|]. exists new. rewrite <- Heq. split; [done|].
    split; [done|]. intros t Ht. rewrite <- (Hfree t Ht).
    symmetry. apply pending_same_tasks. by rewrite Heq.
  - split; [congruence|].
    set (t0 := {| task_id := next_task (application σ);
                  task_callback := layout_task j;
                  task_notify := Some (task_completed j) |}) in *.
    exists (t0 :: new). split; [|split].
    + rewrite Hnew, Htasks. by rewrite <- app_assoc.
    + simpl. apply NoDup_cons. split; [|done].
      intros (t & Ho & Ht)%list_elem_of_fmap.
      specialize (Hfree t Ht).
      rewrite (pending_snoc_tasks σ σ1 t0 (owner t) Htasks) in Hfree.
      rewrite <- Ho in Hfree. rewrite bool_decide_eq_true_2 in Hfree by done.
      by destruct (pending σ (owner t0)).
    + intros t [->|Ht]%elem_of_cons.
      * by apply (pending_none σ j w).
      * specialize (Hfree t Ht).
        rewrite (pending_snoc_tasks σ σ1 t0 (owner t) Htasks) in Hfree.
        by apply app_eq_nil in Hfree as [? _].
Qed.

End Bursts.

(** X4: however many assignments, reads, collections, activations and
    calls of [relayout] happen between two runs of the scheduler, the queue
    only grows at its end, by at most one task per widget and only for
    widgets that had no task; no proxy is called meanwhile. *)
Theorem burst_schedules_once
    (get_constraints : DeferredConstraints → Widget → list LinearConstraint)
    (methods : Overridable) (ops : list Op) (σ σ' : World) :
  reachable get_constraints σ →
  forallb (λ op, negb (runs_scheduler op)) ops = true →
  run get_constraints ops σ = Some σ' →
  proxy_calls σ' = proxy_calls σ ∧
  ∃ new, tasks (application σ') = tasks (application σ) ++ new ∧
         NoDup (owner <$> new) ∧
         ∀ t, t ∈ new → pending σ (owner t) = [].
Proof.
  intros Hreach. apply burst_from_consistent.
  by eapply reachable_consistent.
Qed.

Lemma burst_schedules_once_witness :
  ∃ σ' new,
    @run no_helpers ConstraintsWidget_methods sample_burst active_world = Some σ' ∧
    tasks (application σ') = tasks (application active_world) ++ new ∧
    NoDup (owner <$> new).
Proof.
  destruct (@run no_helpers ConstraintsWidget_methods sample_burst active_world)
    as [σ'|] eqn:Hrun; [|vm_compute in Hrun; discriminate Hrun].
  destruct (burst_schedules_once no_helpers ConstraintsWidget_methods
              sample_burst active_world σ' active_world_reachable eq_refl Hrun)
    as (_ & new & Hnew & Hnd & _).
  exists σ', new. split; [reflexivity|]. split; [exact Hnew | exact Hnd].
Defined.

(** ** Requests, tasks and proxy calls *)

Lemma calls_same σ σ' i :
  proxy_calls σ' = proxy_calls σ → calls σ' i = calls σ i.
Proof. unfold calls. by intros ->. Qed.

Lemma calls_snoc σ σ' j i :
  proxy_calls σ' = proxy_calls σ ++ [j] →
  calls σ' i = calls σ i + (if bool_decide (j = i) then 1 else 0).
Proof.
  unfold calls. intros ->. rewrite List.filter_app, length_app. simpl.
  by case_bool_decide.
Qed.

Lemma pending_cons σ t rest i :
  tasks (application σ) = t :: rest →
  pending σ i =
  (if bool_decide (owner t = i) then [t] else []) ++
  List.filter (λ x, bool_decide (task_callback x = layout_task i)) rest.
Proof.
  unfold pending. intros ->. simpl. rewrite (callback_owner t).
  destruct (decide (owner t = i)) as [->|Hne].
  - by rewrite !bool_decide_eq_true_2.
  - rewrite !bool_decide_eq_false_2; [done..|congruence].
Qed.

(** What one run of the scheduler does to the counts of widget [i]. *)
Lemma process_task_counts σ i :
  consistent σ →
  match tasks (application σ) with
  | [] => process_task σ = σ
  | t :: rest =>
      active (process_task σ) i = active σ i ∧
      calls (process_task σ) i =
        calls σ i + (if bool_decide (owner t = i) && active σ i then 1 else 0) ∧
      length (pending σ i) =
        (if bool_decide (owner t = i) then 1 else 0) +
        length (pending (process_task σ) i)
  end.
Proof.
  intros Hc. destruct (tasks (application σ)) as [|t rest] eqn:Hq.
  { unfold process_task. by rewrite Hq. }
  destruct (c_task _ Hc t) as (Hn & w & Hw & Hwt); [rewrite Hq; by left|].
  rewrite (process_task_head σ t rest w Hq Hn Hw).
  split; [|split].
  - unfold active. simpl. destruct (decide (owner t = i)) as [<-|Hne].
    + by rewrite lookup_insert_eq, Hw.
    + by rewrite lookup_insert_ne.
  - unfold active. destruct (decide (owner t = i)) as [<-|Hne].
    + rewrite Hw, bool_decide_eq_true_2 by done. simpl.
      destruct (proxy_is_active w).
      * erewrite calls_snoc by reflexivity.
        by rewrite bool_decide_eq_true_2.
      * rewrite (calls_same σ) by done. lia.
    + rewrite bool_decide_eq_false_2 by done. simpl.
      destruct (proxy_is_active w).
      * erewrite calls_snoc by reflexivity.
        rewrite bool_decide_eq_false_2 by done. lia.
      * rewrite (calls_same σ) by done. lia.
  - rewrite (pending_cons σ t rest i Hq). unfold pending. simpl.
    rewrite length_app. by case_bool_decide.
Qed.

Section Counting.
Context (get_constraints : DeferredConstraints → Widget → list LinearConstraint).
Context `{Overridable}.

Lemma step_counts op σ σ' i :
  consistent σ → step get_constraints op σ = Some σ' →
  calls σ' i + length (pending σ' i) ≤
  calls σ i + length (pending σ i) +
  (if invalidates i op then 1 else 0).
Proof.
  intros Hc Hstep. destruct (runs_scheduler op) eqn:Hrs.
  - destruct op; try discriminate. simpl in Hstep. injection Hstep as <-.
    pose proof (process_task_counts σ i Hc) as Hp.
    destruct (tasks (application σ)) as [|t rest]; [rewrite Hp; simpl; lia|].
    destruct Hp as (_ & Hcalls & Hpend). rewrite Hcalls, Hpend. simpl.
    destruct (bool_decide (owner t = i)), (active σ i); simpl; lia.
  - destruct (step_effect get_constraints op σ σ' Hc Hstep Hrs)
      as [Hcalls [Heq|(j & w & Hj & _ & _ & _ & Htasks)]].
    + rewrite (calls_same σ σ' i Hcalls).
      rewrite (pending_same_tasks σ σ' i) by (by rewrite Heq). lia.
    + rewrite (calls_same σ σ' i Hcalls).
      rewrite (pending_snoc_tasks σ σ' _ i Htasks). unfold owner. simpl.
      rewrite length_app. case_bool_decide as Hji; simpl; [|lia].
      subst j. rewrite Hj. lia.
Qed.

Lemma run_counts ops σ σ' i :
  consistent σ → run get_constraints ops σ = Some σ' →
  calls σ' i + length (pending σ' i) ≤
  calls σ i + length (pending σ i) + requests ops i.
Proof.
  revert σ. induction ops as [|op ops IH]; simpl; intros σ Hc Hrun.
  { injection Hrun as <-. unfold requests. simpl. lia. }
  destruct (step get_constraints op σ) as [σ1|] eqn:Hstep; [|done].
  simpl in Hrun.
  pose proof (consistent_step get_constraints op σ σ1 Hc Hstep) as Hc1.
  pose proof (step_counts op σ σ1 i Hc Hstep) as H1.
  pose proof (IH σ1 Hc1 Hrun) as H2.
  unfold requests in *. simpl.
  destruct (invalidates i op); simpl; lia.
Qed.

End Counting.

(** X5: in a program that starts with no objects, the calls of
    [proxy.relayout()] made for a widget and its tasks still in the queue
    are together at most as many as the operations that can invalidate its
    layout: the calls of [relayout], the assignments to its members, the
    reads of its members and the collections of its constraints. *)
Theorem proxy_calls_bounded
    (get_constraints : DeferredConstraints → Widget → list LinearConstraint)
    (methods : Overridable) (ops : list Op) (σ : World) (i : nat) :
  run get_constraints ops empty_world = Some σ →
  calls σ i + length (pending σ i) ≤ requests ops i.
Proof.
  intros Hrun.
  pose proof (run_counts get_constraints ops empty_world σ i
                consistent_empty Hrun) as Hle.
  change (calls empty_world i) with 0 in Hle.
  change (pending empty_world i) with (@nil ScheduledTask) in Hle.
  simpl in Hle. lia.
Qed.

(** A program: create a widget, activate its proxy, invalidate it four
    times and let the scheduler run twice. *)
Lemma proxy_calls_bounded_witness :
  ∃ σ,
    @run no_helpers ConstraintsWidget_methods
         (op_new ConstraintsWidget_ 0 ToolkitProxy [] :: op_activate_proxy 0 ::
          sample_burst ++ [op_process_task; op_process_task])
         empty_world = Some σ ∧
    calls σ 0 + length (pending σ 0) ≤ 4.
Proof.
  destruct (@run no_helpers ConstraintsWidget_methods
              (op_new ConstraintsWidget_ 0 ToolkitProxy [] :: op_activate_proxy 0 ::
               sample_burst ++ [op_process_task; op_process_task])
              empty_world) as [σ|] eqn:Hrun;
    [|vm_compute in Hrun; discriminate Hrun].
  exists σ. split; [reflexivity|].
  apply (proxy_calls_bounded no_helpers ConstraintsWidget_methods _ σ 0 Hrun).
Defined.

(** ** Draining the queue *)

Lemma process_tasks_succ n σ :
  process_tasks (S n) σ = process_tasks n (process_task σ).
Proof. unfold process_tasks. apply Nat.iter_succ_r. Qed.

Lemma drain_counts n σ i :
  consistent σ → length (tasks (application σ)) = n →
  active (process_tasks n σ) i = active σ i ∧
  calls (process_tasks n σ) i =
    calls σ i + (if active σ i then length (pending σ i) else 0).
Proof.
  revert σ. induction n as [|n IH]; intros σ Hc Hlen.
  { destruct (tasks (application σ)) eqn:Hq; [|done].
    unfold process_tasks, pending. simpl. rewrite Hq. simpl.
    split; [done|]. destruct (active σ i); lia. }
  rewrite process_tasks_succ.
  pose proof (process_task_counts σ i Hc) as Hp.
  pose proof (process_task_queue σ) as Hq.
  destruct (tasks (application σ)) as [|t rest]; [done|].
  destruct Hp as (Hact & Hcalls & Hpend).
  destruct (IH (process_task σ)) as [Hact' Hcalls'];
    [by apply consistent_process_task | rewrite Hq; simpl in *; lia |].
  split; [congruence|]. rewrite Hcalls', Hcalls, Hact, Hpend.
  destruct (bool_decide (owner t = i)), (active σ i); simpl; lia.
Qed.

(** X6: when the scheduler has gone through the queue, the queue is empty
    and every widget that had a task in it has had [proxy.relayout()]
    called exactly once if its proxy was active and not at all otherwise;
    a widget without a task has not been called. *)
Theorem drain_calls_each_once
    (get_constraints : DeferredConstraints → Widget → list LinearConstraint)
    (methods : Overridable) (σ : World) (i : nat) :
  reachable get_constraints σ →
  let σ' := process_tasks (length (tasks (application σ))) σ in
  tasks (application σ') = [] ∧
  length (pending σ i) ≤ 1 ∧
  calls σ' i = calls σ i + (if active σ i then length (pending σ i) else 0).
Proof.
  intros Hreach. pose proof (reachable_consistent _ _ Hreach) as Hc. simpl.
  split; [by rewrite process_tasks_queue, drop_all|].
  split; [by apply consistent_pending_le|].
  by apply drain_counts.
Qed.

Lemma drain_calls_each_once_witness :
  calls (process_tasks (length (tasks (application detached_world)))
           detached_world) 0 =
  calls detached_world 0 +
  (if active detached_world 0 then length (pending detached_world 0) else 0).
Proof.
  apply (drain_calls_each_once no_helpers ConstraintsWidget_methods
           detached_world 0 detached_world_reachable).
Defined.

(** ** From the request to the proxy *)

(** X7: one or more calls of [relayout] on a widget whose proxy is active,
    followed by a pass of the scheduler through the queue, make exactly one
    call of [proxy.relayout()] for the widget, whether or not it already
    had a task; afterwards the widget has no task and the queue is
    empty. *)
Theorem requests_then_drain
    (get_constraints : DeferredConstraints → Widget → list LinearConstraint)
    (methods : Overridable) (σ σ1 : World) (i : nat) (w : Widget) (n : nat) :
  reachable get_constraints σ → objects σ !! i = Some w →
  proxy_is_active w = true → 1 ≤ n →
  run get_constraints (replicate n (op_relayout i)) σ = Some σ1 →
  let σ2 := process_tasks (length (tasks (application σ1))) σ1 in
  calls σ2 i = calls σ i + 1 ∧
  tasks (application σ2) = [] ∧
  ∃ w2, objects σ2 !! i = Some w2 ∧ _layout_task w2 = None ∧
        proxy_is_active w2 = true.
Proof.
  intros Hreach Hi Ha Hn Hrun. simpl.
  pose proof (reachable_consistent _ _ Hreach) as Hc.
  set (r := ConstraintsWidget.relayout (application σ) w).
  assert (σ1 = put σ r.1 i r.2) as ->.
  { destruct n as [|n]; [lia|]. cbn [replicate run] in Hrun.
    assert (step get_constraints (op_relayout i) σ = Some (put σ r.1 i r.2))
      as Hstep by (simpl; by rewrite Hi).
    rewrite Hstep in Hrun. simpl in Hrun.
    rewrite run_relayout_fixed in Hrun by (by apply step_relayout_again).
    by injection Hrun as <-. }
  assert (consistent (put σ r.1 i r.2)) as Hc1 by (by apply consistent_relayout).
  assert (proxy_is_active r.2 = true ∧ is_Some (_layout_task r.2)) as [Ha' [tid Ht']].
  { subst r. destruct (relayout_cases (application σ) w) as [[-> [Hf|Hs]]|[_ Hn']].
    - congruence.
    - done.
    - unfold ConstraintsWidget.relayout. rewrite Ha, Hn'. simpl. eauto. }
  assert (objects (put σ r.1 i r.2) !! i = Some r.2) as Hi1
    by (simpl; apply lookup_insert_eq).
  destruct (drain_counts (length (tasks (application (put σ r.1 i r.2))))
              (put σ r.1 i r.2) i Hc1 eq_refl) as [Hact Hcalls].
  assert (active (put σ r.1 i r.2) i = true) as Hact1
    by (unfold active; by rewrite Hi1).
  rewrite Hact1 in Hact, Hcalls.
  rewrite (pending_some _ i r.2 tid Hc1 Hi1 Ht') in Hcalls.
  split; [by rewrite Hcalls|].
  assert (tasks (application
            (process_tasks (length (tasks (application (put σ r.1 i r.2))))
                           (put σ r.1 i r.2))) = []) as Hempty
    by (by rewrite process_tasks_queue, drop_all).
  split; [done|].
  unfold active in Hact.
  destruct (objects (process_tasks
                       (length (tasks (application (put σ r.1 i r.2))))
                       (put σ r.1 i r.2)) !! i) as [w2|] eqn:Hw2;
    [|done].
  exists w2. split; [done|]. split; [|done].
  destruct (_layout_task w2) as [t2|] eqn:Ht2; [|done].
  pose proof (consistent_process_tasks
                (length (tasks (application (put σ r.1 i r.2))))
                (put σ r.1 i r.2) Hc1) as Hc2.
  destruct (c_handle _ Hc2 _ _ _ Hw2 Ht2) as (task & Hin & _).
  rewrite Hempty in Hin. by apply elem_of_nil in Hin.
Qed.

Lemma requests_then_drain_witness :
  ∃ σ1,
    @run no_helpers ConstraintsWidget_methods (replicate 3 (op_relayout 0))
         active_world = Some σ1 ∧
    calls (process_tasks (length (tasks (application σ1))) σ1) 0 =
    calls active_world 0 + 1.
Proof.
  destruct (@run no_helpers ConstraintsWidget_methods
              (replicate 3 (op_relayout 0)) active_world)
    as [σ1|] eqn:Hrun; [|vm_compute in Hrun; discriminate Hrun].
  exists σ1. split; [reflexivity|].
  apply (requests_then_drain no_helpers ConstraintsWidget_methods
           active_world σ1 0 (with_proxy_is_active sample_widget true) 3).
  - apply active_world_reachable.
  - reflexivity.
  - reflexivity.
  - lia.
  - exact Hrun.
Defined.

(** X8: as soon as the task of a widget has run, a new call of [relayout]
    on the widget (its proxy being active) schedules a new task at the end
    of the queue, under a handle that differs from the one just cleared. *)
Theorem relayout_again_after_completion
    (get_constraints : DeferredConstraints → Widget → list LinearConstraint)
    (methods : Overridable) (σ : World) (i : nat) (w : Widget)
    (t : ScheduledTask) (rest : list ScheduledTask) :
  reachable get_constraints σ → objects σ !! i = Some w →
  proxy_is_active w = true →
  tasks (application σ) = t :: rest → _layout_task w = Some (task_id t) →
  ∃ σ' w',
    step get_constraints (op_relayout i) (process_task σ) = Some σ' ∧
    objects σ' !! i = Some w' ∧
    _layout_task w' = Some (next_task (application σ)) ∧
    task_id t < next_task (application σ) ∧
    tasks (application σ') =
      rest ++ [{| task_id := next_task (application σ);
                  task_callback := layout_task i;
                  task_notify := Some (task_completed i) |}].
Proof.
  intros Hreach Hi Ha Hq Ht.
  pose proof (reachable_consistent _ _ Hreach) as Hc.
  pose proof (head_task_owner σ i w t rest Hc Hi Hq Ht) as Ho. subst i.
  destruct (c_task _ Hc t) as (Hn & _); [rewrite Hq; by left|].
  pose proof (consistent_process_task σ Hc) as Hc'.
  rewrite (process_task_head σ t rest w Hq Hn Hi) in Hc' |- *.
  simpl. rewrite lookup_insert_eq. simpl.
  rewrite relayout_schedules; [|apply Hc'|done..]. simpl.
  eexists _, _. split; [reflexivity|]. simpl. rewrite lookup_insert_eq.
  split; [reflexivity|]. split; [done|]. split.
  - apply (c_ids _ Hc). rewrite Hq. by left.
  - by rewrite (c_wid _ Hc _ _ Hi).
Qed.

Lemma relayout_again_after_completion_witness :
  ∃ σ' w',
    @step no_helpers ConstraintsWidget_methods (op_relayout 0)
          (process_task pending_world) = Some σ' ∧
    objects σ' !! 0 = Some w' ∧
    _layout_task w' = Some 1.
Proof.
  destruct (relayout_again_after_completion no_helpers ConstraintsWidget_methods
              pending_world 0
              (with__layout_task (with_proxy_is_active sample_widget true) (Some 0))
              {| task_id := 0; task_callback := layout_task 0;
                 task_notify := Some (task_completed 0) |} [])
    as (σ' & w' & Hstep & Hobj & Hhandle & _).
  - apply (@reachable_step no_helpers ConstraintsWidget_methods active_world
             (op_relayout 0)); [apply active_world_reachable | reflexivity].
  - reflexivity.
  - reflexivity.
  - reflexivity.
  - reflexivity.
  - exists σ', w'. split; [exact Hstep|]. split; [exact Hobj | exact Hhandle].
Defined.

(** ** The box model under the hard constraints *)

Lemma half_between (a b : Q) :
  (0 <= b → a <= a + b / 2 ∧ a + b / 2 <= a + b)%Q.
Proof.
  intros Hb. unfold Qdiv. change (/ 2)%Q with (1 # 2)%Q. split; lra.
Qed.

(** X10: an assignment of the variables satisfies the hard constraints of
    a widget exactly when left, top, width and height are not negative;
    every such assignment puts the derived expressions in order:
    left <= h_center <= right and top <= v_center <= bottom. *)
Theorem hard_constraints_geometry
    (self : Widget) (env : ConstraintVariable → Q) :
  let L := value env (ConstraintsWidget.left self) in
  let T := value env (ConstraintsWidget.top self) in
  let W := value env (ConstraintsWidget.width self) in
  let H := value env (ConstraintsWidget.height self) in
  (Forall (holds env) (ConstraintsWidget._hard_constraints self) ↔
   (0 <= L ∧ 0 <= T ∧ 0 <= W ∧ 0 <= H)%Q) ∧
  (Forall (holds env) (ConstraintsWidget._hard_constraints self) →
   (L <= value env (ConstraintsWidget._default_h_center self) ∧
    value env (ConstraintsWidget._default_h_center self) <=
      value env (ConstraintsWidget._default_right self) ∧
    T <= value env (ConstraintsWidget._default_v_center self) ∧
    value env (ConstraintsWidget._default_v_center self) <=
      value env (ConstraintsWidget._default_bottom self))%Q).
Proof.
  simpl.
  assert (Forall (holds env) (ConstraintsWidget._hard_constraints self) ↔
          (0 <= value env (ConstraintsWidget.left self) ∧
           0 <= value env (ConstraintsWidget.top self) ∧
           0 <= value env (ConstraintsWidget.width self) ∧
           0 <= value env (ConstraintsWidget.height self))%Q) as Hiff.
  { unfold ConstraintsWidget._hard_constraints.
    rewrite !Forall_cons, Forall_nil. unfold holds. simpl. tauto. }
  split; [exact Hiff|]. intros (HL & HT & HW & HH)%Hiff.
  unfold ConstraintsWidget._default_h_center, ConstraintsWidget._default_right,
    ConstraintsWidget._default_v_center, ConstraintsWidget._default_bottom.
  cbn [value].
  destruct (half_between (value env (ConstraintsWidget.left self)) _ HW).
  destruct (half_between (value env (ConstraintsWidget.top self)) _ HH).
  tauto.
Qed.

(** ** Children and the default layout of a container *)

(** X12: [layout_constraints] never returns an empty list.  Adding a child
    at the end changes [widgets()] only when the child is a constraints
    widget, which is then added at the end; the result of
    [layout_constraints] does not change when the child is no constraints
    widget or when the container has constraints of its own. *)
Theorem layout_constraints_and_children (self : Widget) (c : Child) :
  let self' := with_children self (children self ++ [c]) in
  Container.layout_constraints self ≠ [] ∧
  Container.widgets self' =
    Container.widgets self ++
    (if Container.isinstance_ConstraintsWidget c then [c] else []) ∧
  (child_kind c = None →
   Container.layout_constraints self' = Container.layout_constraints self) ∧
  (constraints self ≠ [] →
   Container.layout_constraints self' = Container.layout_constraints self) ∧
  (constraints self = [] → is_Some (child_kind c) →
   Container.layout_constraints self' =
     [Deferred (vbox (Container.widgets self ++ [c]))]).
Proof.
  simpl.
  assert (Container.widgets (with_children self (children self ++ [c])) =
          Container.widgets self ++
          (if Container.isinstance_ConstraintsWidget c then [c] else [])) as Hw.
  { unfold Container.widgets. simpl. rewrite List.filter_app. simpl.
    by destruct (Container.isinstance_ConstraintsWidget c). }
  split; [|split; [exact Hw|split; [|split]]].
  - unfold Container.layout_constraints. by destruct (constraints self).
  - intros Hk. unfold Container.layout_constraints. rewrite Hw. simpl.
    unfold Container.isinstance_ConstraintsWidget. rewrite Hk.
    by rewrite app_nil_r.
  - intros Hne. unfold Container.layout_constraints. simpl.
    by destruct (constraints self).
  - intros He [k Hk]. unfold Container.layout_constraints. rewrite Hw. simpl.
    rewrite He. simpl. unfold Container.isinstance_ConstraintsWidget.
    by rewrite Hk.
Qed.

(** ** Collections that leave the widget alone, and those that do not *)

Lemma with_constraints_same w : with_constraints w (constraints w) = w.
Proof. by destruct w. Qed.

(** X13: on a widget whose constraints slot is filled (the list has been
    read or assigned before), when the list is empty or the class of the
    widget has no component constraints (as the base class), a collection
    of the constraints changes nothing in the application: no slot of the
    widget, no task, no proxy call. *)
Theorem collect_constraints_pure
    (get_constraints : DeferredConstraints → Widget → list LinearConstraint)
    (methods : Overridable) (σ : World) (i : nat) (w : Widget) :
  objects σ !! i = Some w → m_constraints ∈ filled w →
  constraints w = [] ∨ _component_constraints w = [] →
  (ConstraintsWidget._collect_constraints get_constraints w).2 = w ∧
  step get_constraints (op_collect_constraints i) σ = Some σ.
Proof.
  intros Hi Hf Hcase.
  assert ((ConstraintsWidget._collect_constraints get_constraints w).2 = w)
    as Hsame.
  { rewrite collect_state. destruct (constraints w) as [|e l] eqn:E; [done|].
    destruct Hcase as [?| ->]; [done|].
    rewrite app_nil_r, <- E. apply with_constraints_same. }
  split; [done|]. simpl. rewrite Hi. simpl.
  unfold getattr. simpl. rewrite bool_decide_eq_true_2 by done. simpl.
  rewrite Hsame. by rewrite put_same.
Qed.

Lemma collect_constraints_pure_witness :
  @step no_helpers ConstraintsWidget_methods (op_collect_constraints 0)
        (put empty_world idle_app 0 assigned_widget) =
  Some (put empty_world idle_app 0 assigned_widget).
Proof.
  apply (collect_constraints_pure no_helpers ConstraintsWidget_methods
           (put empty_world idle_app 0 assigned_widget) 0 assigned_widget).
  - reflexivity.
  - by left.
  - right. reflexivity.
Defined.

Lemma concat_replicate_comm {A} (n : nat) (x : list A) :
  concat (replicate n x) ++ x = x ++ concat (replicate n x).
Proof.
  induction n as [|n IH]; simpl; [by rewrite app_nil_r|].
  by rewrite <- app_assoc, IH.
Qed.

(** X14: on a widget whose constraints list is not empty, every collection
    appends the component constraints of its class to that list once more:
    after [n] collections the list is the original one followed by [n]
    copies of the component constraints (for a class whose component
    constraints do not depend on the list). *)
Theorem collect_constraints_accumulates
    (get_constraints : DeferredConstraints → Widget → list LinearConstraint)
    (methods : Overridable) (self : Widget) (n : nat) :
  constraints self ≠ [] →
  (∀ l, _component_constraints (with_constraints self l) =
        _component_constraints self) →
  collect_times get_constraints n self =
    with_constraints self
      (constraints self ++ concat (replicate n (_component_constraints self))).
Proof.
  intros Hne Hstable. unfold collect_times.
  induction n as [|n IH]; simpl.
  { by rewrite app_nil_r, with_constraints_same. }
  rewrite IH, collect_state. simpl.
  destruct (constraints self ++ concat (replicate n (_component_constraints self)))
    as [|e l] eqn:E.
  { apply app_eq_nil in E as [? _]. contradiction. }
  rewrite Hstable, <- E. unfold with_constraints. simpl. f_equal.
  by rewrite <- app_assoc, concat_replicate_comm.
Qed.

Lemma collect_constraints_accumulates_witness :
  constraints
    (@collect_times MinWidth_methods no_helpers 3
       (with_constraints sample_widget [Linear (narrow sample_widget)])) =
  [ Linear (narrow sample_widget);
    Linear (ge (ConstraintsWidget.width sample_widget) (Num 5));
    Linear (ge (ConstraintsWidget.width sample_widget) (Num 5));
    Linear (ge (ConstraintsWidget.width sample_widget) (Num 5)) ].
Proof.
  rewrite (collect_constraints_accumulates no_helpers MinWidth_methods
             (with_constraints sample_widget [Linear (narrow sample_widget)]) 3).
  - reflexivity.
  - discriminate.
  - reflexivity.
Defined.

(** ** Assignments while the proxy is not active *)

(** X15: as long as the proxy of a widget is not active, an accepted
    assignment to any of its members only stores the value: nothing is
    scheduled and the task slot is not touched. *)
Theorem setattr_inactive_only_stores
    (app : Application) (self : Widget) (m : Member) (v : Value)
    (r : Application * Widget) :
  proxy_is_active self = false → setattr app self m v = Some r →
  r.1 = app ∧ store self m v = Some r.2 ∧
  _layout_task r.2 = _layout_task self ∧ proxy_is_active r.2 = false.
Proof.
  intros Ha Hr.
  destruct (setattr_cases _ _ _ _ _ Hr) as (self' & Hst & Hcase).
  destruct (store_frame _ _ _ _ Hst) as (_ & _ & _ & Ht & Hact & _).
  assert (r = (app, self')) as ->.
  { destruct Hcase as [->| ->]; [done|].
    apply relayout_not_active. congruence. }
  simpl. repeat split; congruence.
Qed.

Lemma setattr_inactive_only_stores_witness :
  setattr idle_app sample_widget m_constraints
          (VList [Linear (narrow sample_widget)]) =
  Some (idle_app,
        fill (with_constraints sample_widget [Linear (narrow sample_widget)])
             m_constraints).
Proof.
  destruct (setattr idle_app sample_widget m_constraints
              (VList [Linear (narrow sample_widget)])) as [r|] eqn:Hr;
    [|vm_compute in Hr; discriminate Hr].
  destruct (setattr_inactive_only_stores idle_app sample_widget m_constraints
              (VList [Linear (narrow sample_widget)]) r eq_refl Hr)
    as (Happ & Hst & _).
  destruct r as [a x]. simpl in Happ, Hst. subst a.
  injection Hst as <-. reflexivity.
Defined.

(** ** The variables a widget reads *)

(** X16: the derived expressions and the hard constraints of a widget read
    the widget's own variables only: two assignments that agree on the
    variables owned by the widget give the four derived expressions the
    same values and satisfy the same hard constraints. *)
Theorem box_model_reads_own_variables
    (self : Widget) (env env' : ConstraintVariable → Q) :
  (∀ v, var_owner v = wid self → env v = env' v) →
  value env (ConstraintsWidget._default_right self) =
    value env' (ConstraintsWidget._default_right self) ∧
  value env (ConstraintsWidget._default_bottom self) =
    value env' (ConstraintsWidget._default_bottom self) ∧
  value env (ConstraintsWidget._default_h_center self) =
    value env' (ConstraintsWidget._default_h_center self) ∧
  value env (ConstraintsWidget._default_v_center self) =
    value env' (ConstraintsWidget._default_v_center self) ∧
  (Forall (holds env) (ConstraintsWidget._hard_constraints self) ↔
   Forall (holds env') (ConstraintsWidget._hard_constraints self)).
Proof.
  intros Hagree.
  unfold ConstraintsWidget._default_right, ConstraintsWidget._default_bottom,
    ConstraintsWidget._default_h_center, ConstraintsWidget._default_v_center,
    ConstraintsWidget._hard_constraints, ConstraintsWidget.left,
    ConstraintsWidget.top, ConstraintsWidget.width, ConstraintsWidget.height.
  rewrite !Forall_cons, !Forall_nil. unfold holds. simpl.
  rewrite !(Hagree {| var_owner := wid self; var_name := "left" |} eq_refl),
    !(Hagree {| var_owner := wid self; var_name := "top" |} eq_refl),
    !(Hagree {| var_owner := wid self; var_name := "width" |} eq_refl),
    !(Hagree {| var_owner := wid self; var_name := "height" |} eq_refl).
  tauto.
Qed.

Lemma box_model_reads_own_variables_witness :
  value (sample_env 5) (ConstraintsWidget._default_right sample_widget) =
  value (sample_env 7) (ConstraintsWidget._default_right sample_widget).
Proof.
  apply (box_model_reads_own_variables sample_widget (sample_env 5) (sample_env 7)).
  intros v Hv. unfold sample_env. simpl in Hv.
  by rewrite bool_decide_eq_true_2.
Defined.

(** ** Reading the derived constants *)

(** X17: reading a member twice is the same as reading it once, and the
    order in which two members are first read does not matter: the slots
    end up the same. *)
Theorem read_idempotent_commutes (self : Widget) (m1 m2 : Member) :
  read (read self m1) m1 = read self m1 ∧
  read (read self m1) m2 = read (read self m2) m1.
Proof.
  unfold read, ConstraintsWidget.right, ConstraintsWidget.bottom,
    ConstraintsWidget.v_center, ConstraintsWidget.h_center.
  destruct (right_slot self) eqn:Er, (bottom_slot self) eqn:Eb,
    (v_center_slot self) eqn:Ev, (h_center_slot self) eqn:Eh;
    destruct m1, m2; simpl; rewrite ?Er, ?Eb, ?Ev, ?Eh; simpl;
    rewrite ?Er, ?Eb, ?Ev, ?Eh; split; reflexivity.
Qed.
